(** * m_customtags (InspIRCd 3 contrib module): custom message tags

    A shallow embedding of [src/3.0/m_customtags.cpp] and the properties of
    its tag store codec, subject resolution, recipient filter and
    configuration reload.

    Conventions of the embedding.
    - [std::string] is a list of characters ([std_string]); literals are
      written [str "..."].
    - [size_t] and [int] values are integers of [Z]; the two conversions the
      module performs between them are written out ([to_size_t], [to_int]).
    - A C++ object that the code mutates is passed in and returned
      (explicit state passing); a thrown exception is a constructor of the
      result type carrying the state as it is at the throw.
    - [ServerInstance->Logs->Log] appends to a list of log lines, and
      [msg.AddTag] calls are collected in call order. *)

From Stdlib Require Import Ascii String.
From Stdlib Require Import List ZArith Lia Bool Arith PeanoNat Permutation.
Import ListNotations.

Set Implicit Arguments.

(** ** Strings *)

Definition std_string := list ascii.

Definition str (s : string) : std_string := list_ascii_of_string s.

(** [std::string::empty]. *)
Definition empty (s : std_string) : bool :=
  match s with [] => true | _ => false end.

(** [std::string::find_first_not_of(c, pos)] and [std::string::find(c, pos)]
    are instances of one scan: the index of the first character at or after
    [pos] that satisfies [P]; [None] stands for [std::string::npos]. *)
Fixpoint find_from (P : ascii -> bool) (s : std_string) (pos : nat) : option nat :=
  match s with
  | [] => None
  | c :: t =>
      match pos with
      | O => if P c then Some O else option_map S (find_from P t O)
      | S pos' => option_map S (find_from P t pos')
      end
  end.

Definition find_first_not_of (s : std_string) (c : ascii) (pos : nat) : option nat :=
  find_from (fun x => negb (Ascii.eqb x c)) s pos.

Definition find (s : std_string) (c : ascii) (pos : nat) : option nat :=
  find_from (fun x => Ascii.eqb x c) s pos.

(** [std::string::assign(s, pos, n)] / [substr(pos, n)] for [pos <= size]. *)
Definition substr (s : std_string) (pos n : nat) : std_string :=
  firstn n (skipn pos s).

(** ** [irc::sepstream] (InspIRCd core, hashcomp)

    The module includes [inspircd.h] and tokenises the payload with
    [irc::spacesepstream], a class of the InspIRCd 3 core the module is built
    against ([$ModDepends: core 3]); the class is not part of this
    repository.  The record and the two member functions below follow the
    core's implementation: a cursor [pos] into the source string, the stream
    being at its end once [pos] is PAST the length of the string, and
    [GetToken] skipping separators first unless [allow_empty]. *)

Record sepstream := mk_sepstream {
  tokens : std_string;
  sep : ascii;
  pos : nat;
  allow_empty : bool
}.

(** [irc::spacesepstream ts(value)]: separator [' '], [allowempty = false]. *)
Definition spacesepstream (source : std_string) : sepstream :=
  mk_sepstream source " "%char 0 false.

(** [bool sepstream::StreamEnd() { return pos > tokens.length(); }] *)
Definition StreamEnd (ts : sepstream) : bool :=
  length (tokens ts) <? pos ts.

Definition set_pos (ts : sepstream) (p : nat) : sepstream :=
  mk_sepstream (tokens ts) (sep ts) p (allow_empty ts).

(** [bool sepstream::GetToken(std::string& token)]: the returned triple is
    the result, the token written through the reference and the stream
    afterwards. *)
Definition GetToken (ts : sepstream) : bool * std_string * sepstream :=
  if StreamEnd ts then (false, [], ts)
  else
    let start :=
      if allow_empty ts then Some (pos ts)
      else find_first_not_of (tokens ts) (sep ts) (pos ts) in
    match start with
    | None => (false, [], set_pos ts (length (tokens ts) + 1))
    | Some b =>
        let p := match find (tokens ts) (sep ts) b with
                 | Some p => p
                 | None => length (tokens ts)
                 end in
        (true, substr (tokens ts) b (p - b), set_pos ts (p + 1))
    end.

(** ** Case mapping ([irc::insensitive_swo], [irc::equals])

    Both compare strings through the table
    [national_case_insensitive_map], a process-wide pointer of the core that
    the server configuration selects (rfc1459 or ascii case mapping, or a
    national character set).  The table is a parameter of the development. *)

Section CaseMapping.

Variable national_case_insensitive_map : ascii -> ascii.

Definition mapped (c : ascii) : nat :=
  nat_of_ascii (national_case_insensitive_map c).

(** [irc::insensitive_swo::operator()]: compares the mapped characters of
    the common prefix, then the sizes. *)
Fixpoint insensitive_swo (a b : std_string) : bool :=
  match a, b with
  | ca :: ta, cb :: tb =>
      if mapped cb <? mapped ca then false
      else if mapped ca <? mapped cb then true
      else insensitive_swo ta tb
  | _, _ => length a <? length b
  end.

(** [irc::equals]: walks both C strings while neither has ended, then
    compares the characters it stopped at (a terminating NUL is character
    zero). *)
Fixpoint equals (s1 s2 : std_string) : bool :=
  match s1, s2 with
  | c1 :: t1, c2 :: t2 =>
      if mapped c1 =? mapped c2 then equals t1 t2 else false
  | [], [] => true
  | [], c :: _ | c :: _, [] => mapped zero =? mapped c
  end.

End CaseMapping.

(** The ascii case mapping of the core: upper-case letters map to lower
    case, every other character to itself. *)
Definition ascii_case_insensitive_map (c : ascii) : ascii :=
  let n := nat_of_ascii c in
  if (65 <=? n) && (n <=? 90) then ascii_of_nat (n + 32) else c.

(** ** [insp::flat_map] (InspIRCd core, flat_map.h)

    A map kept as a vector of pairs sorted by the key comparator.
    [lower_bound] is the position [std::lower_bound] returns on such a
    vector: the first element whose key is not less than [x]. *)

Section FlatMap.

Variables (K V : Type) (comp : K -> K -> bool).

Definition flat_map := list (K * V).

Fixpoint lower_bound (vect : flat_map) (x : K) : nat :=
  match vect with
  | [] => O
  | e :: t => if comp (fst e) x then S (lower_bound t x) else O
  end.

(** [flat_map::insert(x)]: inserts at the lower bound unless an element
    with an equivalent key is there already, in which case the map is left
    as it is. *)
Definition insert (x : K * V) (vect : flat_map) : flat_map :=
  let it := lower_bound vect (fst x) in
  match nth_error vect it with
  | None => firstn it vect ++ x :: skipn it vect
  | Some e =>
      if comp (fst x) (fst e) then firstn it vect ++ x :: skipn it vect
      else vect
  end.

(** [flat_map::find(k)]: [None] stands for [end()]. *)
Definition flat_find (k : K) (vect : flat_map) : option (K * V) :=
  let it := lower_bound vect k in
  match nth_error vect it with
  | None => None
  | Some e => if comp k (fst e) then None else Some e
  end.

(** [m[k] = v]: [operator[]] inserts [(k, V())] when the key is missing and
    returns a reference to the mapped value at the lower bound, which the
    assignment overwrites. *)
Definition assign (k : K) (v : V) (vect : flat_map) : flat_map :=
  let it := lower_bound vect k in
  match nth_error vect it with
  | None => firstn it vect ++ (k, v) :: skipn it vect
  | Some e =>
      if comp k (fst e) then firstn it vect ++ (k, v) :: skipn it vect
      else firstn it vect ++ (fst e, v) :: skipn (S it) vect
  end.

End FlatMap.

(** ** Integer conversions

    [size_t] is 64 bits wide and [int] 32 bits (LP64). *)

Definition to_size_t (z : Z) : Z := (z mod 2 ^ 64)%Z.

Definition to_int (z : Z) : Z := ((z + 2 ^ 31) mod 2 ^ 32 - 2 ^ 31)%Z.

(** ** Collaborators of the module (declared by the core headers) *)

Inductive UserType := USERTYPE_LOCAL | USERTYPE_REMOTE | USERTYPE_SERVER.

(** [typedef insp::flat_map<std::string, std::string, irc::insensitive_swo>
    CustomTagMap;] *)
Definition CustomTagMap := flat_map std_string std_string.

(** [typedef insp::flat_map<std::string, size_t, irc::insensitive_swo>
    SpecialMessageMap;] *)
Definition SpecialMessageMap := flat_map std_string Z.

(** A user is an [Extensible]; [custom_tags] is the slot of the
    ["custom-tags"] extension item in it ([None]: the item is not set). *)
Record User := mk_User {
  uuid : std_string;
  nick : std_string;
  usertype : UserType;
  custom_tags : option CustomTagMap
}.

Definition LocalUser := User.

Definition IS_SERVER (u : User) : bool :=
  match usertype u with USERTYPE_SERVER => true | _ => false end.

(** [SimpleExtItem<CustomTagMap>::get / set / unset]. *)
Definition get (container : User) : option CustomTagMap :=
  custom_tags container.

Definition set (container : User) (value : CustomTagMap) : User :=
  mk_User (uuid container) (nick container) (usertype container) (Some value).

Definition unset (container : User) : User :=
  mk_User (uuid container) (nick container) (usertype container) None.

Inductive LogLevel := LOG_RAWIO | LOG_DEBUG | LOG_VERBOSE | LOG_DEFAULT.

Record LogLine := mk_LogLine {
  log_type : std_string;
  log_level : LogLevel;
  log_text : std_string
}.

(** [MODNAME] is defined by the build from the name of the source file. *)
Definition MODNAME : std_string := str "m_customtags".

(** [ClientProtocol::Message]: what the module reads of it. *)
Record Message := mk_Message {
  GetCommand : std_string;
  GetParams : list std_string;
  GetSourceUser : option User
}.

(** A [MessageTagProvider*] is an address. *)
Definition MessageTagProvider := nat.

Record MessageTagData := mk_MessageTagData {
  tagprov : MessageTagProvider;
  tagvalue : std_string
}.

(** One call [msg.AddTag(tagname, tagprov, val)]. *)
Record AddTag := mk_AddTag {
  tagname : std_string;
  tagdata : MessageTagData
}.

(** [Cap::Reference]: a dynamic reference to a capability, which is a
    per-user flag when the capability is provided. *)
Definition Capability := LocalUser -> bool.

Definition Cap_Reference := option Capability.

(** [bool Cap::Reference::get(LocalUser* user)]. *)
Definition Cap_get (ref : Cap_Reference) (user : LocalUser) : bool :=
  match ref with
  | Some cap => cap user
  | None => false
  end.

(** [Who::Request]: [GetFieldIndex(flag, out)] gives the index of a WHOX
    field in the reply when the request asked for it. *)
Record Who_Request := mk_Who_Request {
  GetFieldIndex : ascii -> option Z
}.

(** [ConfigTag]: [readString] is the lookup of a key, [readUInt] the
    unsigned number [getUInt] reads for a key before its range check
    ([None]: missing, empty or not a number). *)
Record ConfigTag := mk_ConfigTag {
  readString : std_string -> option std_string;
  readUInt : std_string -> option Z
}.

(** [ConfigTag::getString(key, def, minlen)]. *)
Definition getString (tag : ConfigTag) (key def : std_string) (minlen : Z) : std_string :=
  match readString tag key with
  | None => def
  | Some res => if (Z.of_nat (length res) <? minlen)%Z then def else res
  end.

(** [ConfigTag::getUInt(key, def, min, max)]. *)
Definition getUInt (tag : ConfigTag) (key : std_string) (def min max : Z) : Z :=
  match readUInt tag key with
  | None => def
  | Some res => if ((res <? min) || (max <? res))%Z then def else res
  end.

(** [ServerInstance]: the user directory and the configuration. *)
Record InspIRCd := mk_InspIRCd {
  FindNickOnly : std_string -> option User;
  ServerName : std_string;
  ConfTags : std_string -> list ConfigTag;
  ConfValue : std_string -> ConfigTag
}.

Inductive ModuleException := mk_ModuleException (reason : std_string).

(** The result of a function that may throw: the object it works on as it
    is when the function returns or when the exception leaves it. *)
Inductive outcome (A : Type) :=
| Returned (a : A)
| Thrown (e : ModuleException) (a : A).

(** ** The module *)

Section CustomTagsModule.

Variable national_case_insensitive_map : ascii -> ascii.
Variable ServerInstance : InspIRCd.

(** *** [class CustomTagsExtItem] *)

(** How the loop of [FromNetwork] is left. *)
Inductive loop_exit :=
| Malformed                       (* the [return] at line 57 *)
| Parsed (list : CustomTagMap).   (* [ts.StreamEnd()] at line 48 *)

(** The [while] loop of [FromNetwork] (lines 48-61).  [fuel] bounds the
    number of iterations; [None] means the bound was reached. *)
Fixpoint FromNetwork_loop (fuel : nat) (ts : sepstream) (list : CustomTagMap)
  : option loop_exit :=
  match fuel with
  | O => None
  | S fuel' =>
      if StreamEnd ts then Some (Parsed list)
      else
        let '(ok1, tagname, ts1) := GetToken ts in
        if negb ok1 then Some Malformed
        else
          let '(ok2, tagvalue, ts2) := GetToken ts1 in
          if negb ok2 then Some Malformed
          else FromNetwork_loop fuel' ts2
                 (insert (insensitive_swo national_case_insensitive_map)
                    (tagname, tagvalue) list)
  end.

Definition malformed_line (user : User) (value : std_string) : LogLine :=
  mk_LogLine MODNAME LOG_DEBUG
    (str "Malformed tag list received for " ++ uuid user ++ str ": " ++ value).

(** [CustomTagsExtItem::FromNetwork(container, value)] for a container that
    is a user (the function returns at once on a null one).  The result is
    the user afterwards and the lines logged; every iteration of the loop
    moves the cursor forward, so one more iteration than the payload has
    characters is enough ([FromNetwork_returns]). *)
Definition FromNetwork (user : User) (value : std_string)
  : option (User * list LogLine) :=
  match FromNetwork_loop (S (length value)) (spacesepstream value) [] with
  | None => None
  | Some Malformed => Some (user, [malformed_line user value])
  | Some (Parsed list) =>
      if negb (match list with [] => true | _ => false end)
      then Some (set user list, [])
      else Some (unset user, [])
  end.

(** The [for] loop of [ToNetwork]; [first] is [iter == list->begin()]. *)
Fixpoint ToNetwork_loop (first : bool) (iter : CustomTagMap) (buf : std_string)
  : std_string :=
  match iter with
  | [] => buf
  | e :: rest =>
      let buf := if first then buf else buf ++ [" "%char] in
      let buf := buf ++ fst e in
      let buf := buf ++ [" "%char] in
      let buf := buf ++ snd e in
      ToNetwork_loop false rest buf
  end.

(** [CustomTagsExtItem::ToNetwork(container, item)]. *)
Definition ToNetwork (item : CustomTagMap) : std_string :=
  ToNetwork_loop true item [].

(** *** [class CustomTags] *)

Record CustomTags := mk_CustomTags {
  this : MessageTagProvider;
  ctctagcap : Cap_Reference;
  specialmsgs : SpecialMessageMap;
  vendor : std_string;
  whox_index : Z
}.

(** The constructor: [whox_index(-1)], an empty table and vendor. *)
Definition CustomTags_new (self : MessageTagProvider) (cap : Cap_Reference)
  : CustomTags :=
  mk_CustomTags self cap [] [] (-1).

(** [CustomTags::UserFromMsg]. *)
Definition UserFromMsg (ct : CustomTags) (msg : Message) : option User :=
  match flat_find (insensitive_swo national_case_insensitive_map)
          (GetCommand msg) (specialmsgs ct) with
  | None => None (* Not a special message. *)
  | Some iter =>
      let nick_index := snd iter in
      let nick_index :=
        if equals national_case_insensitive_map (GetCommand msg) (str "354")
        then
          if whox_index ct =? -1 then None (* No nick field. *)
          else Some (to_size_t (whox_index ct + 1))
        else Some nick_index in
      match nick_index with
      | None => None
      | Some nick_index =>
          if Z.of_nat (length (GetParams msg)) <=? nick_index
          then None (* Not enough params. *)
          else FindNickOnly ServerInstance
                 (nth (Z.to_nat nick_index) (GetParams msg) [])
      end
  end%Z.

(** Lines 134-140 of [OnPopulateTags]: the user whose tags are attached. *)
Definition OnPopulateTags_user (ct : CustomTags) (msg : Message) : option User :=
  match GetSourceUser msg with
  | None => UserFromMsg ct msg
  | Some user => if IS_SERVER user then UserFromMsg ct msg else Some user
  end.

(** [CustomTags::OnPopulateTags]: the calls of [msg.AddTag] it makes, in
    the order it makes them. *)
Definition OnPopulateTags (ct : CustomTags) (msg : Message) : list AddTag :=
  match OnPopulateTags_user ct msg with
  | None => [] (* No such user. *)
  | Some user =>
      match get user with
      | None => []
      | Some tags =>
          map (fun iter =>
                 mk_AddTag (vendor ct ++ str "/" ++ fst iter)
                           (mk_MessageTagData (this ct) (snd iter)))
              tags
      end
  end.

(** [CustomTags::ShouldSendTag]. *)
Definition ShouldSendTag (ct : CustomTags) (user : LocalUser)
  (tagdata : MessageTagData) : bool :=
  Cap_get (ctctagcap ct) user.

(** *** [class ModuleCustomTags] *)

(** [ModuleCustomTags::OnWhoLine]: both branches of the conditional have
    type [size_t], the result is converted to [int]. *)
Definition OnWhoLine (ctags : CustomTags) (request : Who_Request) : CustomTags :=
  let v := match GetFieldIndex request "n"%char with
           | Some nick_index => nick_index
           | None => to_size_t (-1)
           end in
  mk_CustomTags (this ctags) (ctctagcap ctags) (specialmsgs ctags)
    (vendor ctags) (to_int v).

(** The [for] loop of [ReadConfig] over the [<specialmsg>] tags, on the
    local table. *)
Fixpoint ReadConfig_loop (tags : list ConfigTag) (specialmsgs : SpecialMessageMap)
  : ModuleException + SpecialMessageMap :=
  match tags with
  | [] => inr specialmsgs
  | tag :: rest =>
      let command := getString tag (str "command") [] 0 in
      if empty command
      then inl (mk_ModuleException
                  (str "<specialmsg:command> must be a S2C command name!"))
      else ReadConfig_loop rest
             (assign (insensitive_swo national_case_insensitive_map) command
                (getUInt tag (str "index") 0 0 20) specialmsgs)
  end.

(** [ModuleCustomTags::ReadConfig]. *)
Definition ReadConfig (ctags : CustomTags) : outcome CustomTags :=
  match ReadConfig_loop (ConfTags ServerInstance (str "specialmsg")) [] with
  | inl e => Thrown e ctags
  | inr specialmsgs' =>
      (* std::swap(specialmsgs, ctags.specialmsgs) *)
      let ctags := mk_CustomTags (this ctags) (ctctagcap ctags) specialmsgs'
                     (vendor ctags) (whox_index ctags) in
      let tag := ConfValue ServerInstance (str "customtags") in
      Returned
        (mk_CustomTags (this ctags) (ctctagcap ctags) (specialmsgs ctags)
           (getString tag (str "vendor") (ServerName ServerInstance) 1)
           (whox_index ctags))
  end.

End CustomTagsModule.

(** ** Vocabulary of the properties *)

(** The fields of a string: the pieces between every two occurrences of
    the separator (an empty string has one, empty, field). *)
Fixpoint split_on (c : ascii) (s : std_string) : list std_string :=
  match s with
  | [] => [[]]
  | x :: t =>
      if Ascii.eqb x c then [] :: split_on c t
      else match split_on c t with
           | f :: fs => (x :: f) :: fs
           | [] => [[x]]
           end
  end.

(** The space-separated tokens of a payload: its non-empty fields. *)
Definition payload_tokens (value : std_string) : list std_string :=
  filter (fun f => negb (empty f)) (split_on " "%char value).

(** The fields end with an empty one: the payload is empty or its last
    character is a space. *)
Fixpoint ends_empty (fs : list std_string) : bool :=
  match fs with
  | [] => false
  | [f] => empty f
  | _ :: t => ends_empty t
  end.

Definition trailing_separator (value : std_string) : bool :=
  ends_empty (split_on " "%char value).

(** Tokens taken two at a time; [None] when one is left over. *)
Fixpoint pairs_of (ws : list std_string) : option (list (std_string * std_string)) :=
  match ws with
  | [] => Some []
  | [_] => None
  | n :: v :: t => option_map (cons (n, v)) (pairs_of t)
  end.

(** The invariant of a [flat_map]: keys strictly ascending. *)
Fixpoint flat_map_ok (K V : Type) (comp : K -> K -> bool) (vect : flat_map K V) : bool :=
  match vect with
  | [] => true
  | e :: t => forallb (fun e' => comp (fst e) (fst e')) t && flat_map_ok comp t
  end.

(** Equivalent keys of a comparator: neither is less than the other. *)
Definition equiv (K : Type) (comp : K -> K -> bool) (a b : K) : bool :=
  negb (comp a b) && negb (comp b a).

(** Two names are the same name for the tag store. *)
Definition same_name (cm : ascii -> ascii) (a b : std_string) : bool :=
  equiv (insensitive_swo cm) a b.

(** Equal ignoring ASCII case. *)
Definition equal_ignoring_case (a b : std_string) : Prop :=
  map ascii_case_insensitive_map a = map ascii_case_insensitive_map b.

(** A case mapping table folds ASCII case (the built-in tables do). *)
Definition folds_ascii_case (cm : ascii -> ascii) : Prop :=
  forall c, cm (ascii_case_insensitive_map c) = cm c.

Definition no_space (t : std_string) : bool :=
  forallb (fun x => negb (Ascii.eqb x " "%char)) t.

(** A token the codec can carry: not empty and without a space. *)
Definition token_ok (t : std_string) : bool :=
  negb (empty t) && no_space t.

Definition tokens_ok (s : CustomTagMap) : bool :=
  forallb (fun e => token_ok (fst e) && token_ok (snd e)) s.

(** White space of the C locale: space, [\t], [\n], [\v], [\f], [\r]. *)
Definition isspace (c : ascii) : bool :=
  let n := nat_of_ascii c in (n =? 32) || ((9 <=? n) && (n <=? 13)).

Definition no_whitespace (s : CustomTagMap) : bool :=
  forallb (fun e => forallb (fun c => negb (isspace c)) (fst e)
                    && forallb (fun c => negb (isspace c)) (snd e)) s.

(** The names and values of a store in its order, and what [ToNetwork]
    writes after the first pair. *)
Definition flatten (s : CustomTagMap) : list std_string :=
  concat (map (fun e => [fst e; snd e]) s).

Definition more_pairs (s : CustomTagMap) : std_string :=
  concat (map (fun e => " "%char :: fst e ++ " "%char :: snd e) s).

(** What the loop of [FromNetwork] computes, in terms of the tokens: the
    pairs are inserted one after the other; a token left over, or fields
    that end with an empty one, make the payload malformed. *)
Fixpoint decode_tokens (cm : ascii -> ascii) (ws : list std_string)
  (trailing : bool) (list : CustomTagMap) : loop_exit :=
  match ws with
  | [] => if trailing then Malformed else Parsed list
  | [_] => Malformed
  | n :: v :: t => decode_tokens cm t trailing (insert (insensitive_swo cm) (n, v) list)
  end.

(** What a stream has left to give: the tokens after its cursor, and
    whether the fields after the cursor end with an empty one.  A stream at
    its end has nothing left. *)
Definition remaining (ts : sepstream) : list std_string * bool :=
  if pos ts <=? length (tokens ts)
  then let fs := split_on (sep ts) (skipn (pos ts) (tokens ts)) in
       (filter (fun f => negb (empty f)) fs, ends_empty fs)
  else ([], false).

(** The effective field position of the subject resolution (spec 4.2,
    step 3): the configured position, or for the command 354 the tracked
    position plus one, as a [size_t]. *)
Definition effective_position (cm : ascii -> ascii) (ct : CustomTags)
  (msg : Message) : option Z :=
  match flat_find (insensitive_swo cm) (GetCommand msg) (specialmsgs ct) with
  | None => None
  | Some e =>
      if equals cm (GetCommand msg) (str "354")
      then if (whox_index ct =? -1)%Z then None
           else Some (to_size_t (whox_index ct + 1))
      else Some (snd e)
  end.

(** The pairs of a token list, a token left over being dropped. *)
Definition pairs_list (ws : list std_string) : list (std_string * std_string) :=
  match pairs_of ws with
  | Some ps => ps
  | None => []
  end.

(** A payload [FromNetwork] accepts: an even number of tokens, and no
    empty field at the end. *)
Definition well_formed (value : std_string) : bool :=
  negb (trailing_separator value) && Nat.even (length (payload_tokens value)).

(** The store built from the pairs of a payload, inserted in their order. *)
Definition decoded_store (cm : ascii -> ascii) (value : std_string) : CustomTagMap :=
  fold_left (fun m p => insert (insensitive_swo cm) p m)
    (pairs_list (payload_tokens value)) [].

(** Strings joined by a separator, none before the first or after the
    last. *)
Fixpoint join (c : ascii) (ws : list std_string) : std_string :=
  match ws with
  | [] => []
  | [w] => w
  | w :: rest => w ++ c :: join c rest
  end.

(** No two pairs of the list have the same name. *)
Fixpoint distinct_names (cm : ascii -> ascii) (ps : list (std_string * std_string))
  : bool :=
  match ps with
  | [] => true
  | p :: t =>
      forallb (fun q => negb (same_name cm (fst p) (fst q))) t
      && distinct_names cm t
  end.

(** Every [<specialmsg>] tag has a command. *)
Definition commands_ok (tags : list ConfigTag) : bool :=
  forallb (fun tag => negb (empty (getString tag (str "command") [] 0))) tags.

(** The index of the last tag whose command is the name [n]. *)
Fixpoint last_index (cm : ascii -> ascii) (tags : list ConfigTag) (n : std_string)
  : option Z :=
  match tags with
  | [] => None
  | tag :: rest =>
      match last_index cm rest n with
      | Some v => Some v
      | None =>
          if same_name cm (getString tag (str "command") [] 0) n
          then Some (getUInt tag (str "index") 0 0 20)
          else None
      end
  end.

(** ** Example data *)

Definition bob_tags : CustomTagMap :=
  insert (insensitive_swo ascii_case_insensitive_map) (str "clan", str "red")
    (insert (insensitive_swo ascii_case_insensitive_map) (str "level", str "5") []).

Definition Alice : User :=
  mk_User (str "001AAAAAA") (str "Alice") USERTYPE_LOCAL None.

Definition Bob : User :=
  mk_User (str "001AAAAAB") (str "Bob") USERTYPE_REMOTE (Some bob_tags).

Definition services : User :=
  mk_User (str "00A") (str "services.example.net") USERTYPE_SERVER None.

Definition example_clientlist (nick : std_string) : option User :=
  if equals ascii_case_insensitive_map nick (str "Alice") then Some Alice
  else if equals ascii_case_insensitive_map nick (str "Bob") then Some Bob
  else None.

Definition config_tag (items : list (string * string)) (numbers : list (string * Z))
  : ConfigTag :=
  mk_ConfigTag
    (fun key => option_map (fun kv => str (snd kv))
                  (List.find (fun kv => String.eqb (fst kv) (string_of_list_ascii key)) items))
    (fun key => option_map snd
                  (List.find (fun kv => String.eqb (fst kv) (string_of_list_ascii key)) numbers)).

Definition example_config (name : std_string) : list ConfigTag :=
  if String.eqb (string_of_list_ascii name) "specialmsg"
  then [config_tag [("command"%string, "321"%string)] [("index"%string, 1%Z)];
        config_tag [("command"%string, "354"%string)] []]
  else if String.eqb (string_of_list_ascii name) "customtags"
  then [config_tag [("vendor"%string, "acme"%string)] []]
  else [].

Definition example_server : InspIRCd :=
  mk_InspIRCd example_clientlist (str "irc.example.net") example_config
    (fun name => hd (config_tag [] []) (example_config name)).

(** A configuration whose second [<specialmsg>] tag has no command. *)
Definition broken_config (name : std_string) : list ConfigTag :=
  if String.eqb (string_of_list_ascii name) "specialmsg"
  then [config_tag [("command"%string, "352"%string)] [("index"%string, 5%Z)];
        config_tag [] [("index"%string, 2%Z)]]
  else if String.eqb (string_of_list_ascii name) "customtags"
  then [config_tag [("vendor"%string, "other"%string)] []]
  else [].

Definition broken_server : InspIRCd :=
  mk_InspIRCd example_clientlist (str "irc.example.net") broken_config
    (fun name => hd (config_tag [] []) (broken_config name)).

(** WHOX requests for the fields [u], [h], [n], [f] and for [u], [h]. *)
Definition request_with_nick : Who_Request :=
  mk_Who_Request
    (fun flag => if Ascii.eqb flag "u"%char then Some 0%Z
                 else if Ascii.eqb flag "h"%char then Some 1%Z
                 else if Ascii.eqb flag "n"%char then Some 2%Z
                 else if Ascii.eqb flag "f"%char then Some 3%Z
                 else None).

Definition request_without_nick : Who_Request :=
  mk_Who_Request
    (fun flag => if Ascii.eqb flag "u"%char then Some 0%Z
                 else if Ascii.eqb flag "h"%char then Some 1%Z
                 else None).

Definition whox_reply : Message :=
  mk_Message (str "354")
    [str "Alice"; str "bob"; str "bob.example.net"; str "Bob"; str "H"]
    (Some services).

Definition numeric_321 : Message :=
  mk_Message (str "321") [str "Alice"; str "Bob"] (Some services).

(** A configuration with two [<specialmsg>] tags for one command, spelled
    in different case. *)
Definition duplicate_config (name : std_string) : list ConfigTag :=
  if String.eqb (string_of_list_ascii name) "specialmsg"
  then [config_tag [("command"%string, "invite"%string)] [("index"%string, 1%Z)];
        config_tag [("command"%string, "INVITE"%string)] [("index"%string, 2%Z)];
        config_tag [("command"%string, "341"%string)] [("index"%string, 99%Z)]]
  else [].

Definition duplicate_server : InspIRCd :=
  mk_InspIRCd example_clientlist (str "irc.example.net") duplicate_config
    (fun name => hd (config_tag [] []) (duplicate_config name)).

Definition message_tags_cap : Capability :=
  fun user => match usertype user with USERTYPE_LOCAL => true | _ => false end.

(** The engine after the constructor and a first [ReadConfig]. *)
Definition example_ctags : CustomTags :=
  match ReadConfig ascii_case_insensitive_map example_server
          (CustomTags_new 1 (Some message_tags_cap)) with
  | Returned ct => ct
  | Thrown _ ct => ct
  end.

(** * Properties *)

Unset Implicit Arguments.

(** ** [irc::insensitive_swo] is a strict weak order, for any table *)

Section SwoOrder.

Variable cm : ascii -> ascii.

Local Ltac cmp_cases :=
  repeat match goal with
         | |- context [?x <? ?y] => destruct (Nat.ltb_spec x y)
         | H : context [?x <? ?y] |- _ => destruct (Nat.ltb_spec x y)
         end; try discriminate; try lia; auto.

Lemma swo_irrefl (a : std_string) : insensitive_swo cm a a = false.
Proof.
  induction a as [|c a IH]; simpl; [reflexivity|].
  rewrite Nat.ltb_irrefl. exact IH.
Qed.

Lemma swo_trans (a b c : std_string) :
  insensitive_swo cm a b = true -> insensitive_swo cm b c = true ->
  insensitive_swo cm a c = true.
Proof.
  revert b c. induction a as [|x a IH]; intros [|y b] [|z c]; simpl;
    try discriminate; auto.
  intros Hab Hbc. cmp_cases. eapply IH; eassumption.
Qed.

Lemma swo_cotrans (a b c : std_string) :
  insensitive_swo cm a b = true ->
  insensitive_swo cm a c = true \/ insensitive_swo cm c b = true.
Proof.
  revert b c. induction a as [|x a IH]; intros [|y b] [|z c]; simpl;
    try discriminate; auto.
  intros Hab. cmp_cases.
Qed.

End SwoOrder.

(** ** [insp::flat_map] over a strict weak order *)

Section FlatMapTheory.

Variables (K V : Type) (comp : K -> K -> bool).

Hypothesis comp_irrefl : forall a, comp a a = false.
Hypothesis comp_trans :
  forall a b c, comp a b = true -> comp b c = true -> comp a c = true.
Hypothesis comp_cotrans :
  forall a b c, comp a b = true -> comp a c = true \/ comp c b = true.

Lemma equiv_refl (a : K) : equiv comp a a = true.
Proof. unfold equiv. now rewrite comp_irrefl. Qed.

Lemma equiv_sym (a b : K) : equiv comp a b = equiv comp b a.
Proof. unfold equiv. apply andb_comm. Qed.

Lemma equiv_comp_l (a b c : K) : equiv comp a b = true -> comp a c = comp b c.
Proof.
  unfold equiv. intros H. apply andb_prop in H as [Hab Hba].
  apply negb_true_iff in Hab, Hba.
  destruct (comp a c) eqn:Hac, (comp b c) eqn:Hbc; auto.
  - destruct (comp_cotrans a c b Hac) as [H|H]; congruence.
  - destruct (comp_cotrans b c a Hbc) as [H|H]; congruence.
Qed.

Lemma equiv_comp_r (a b c : K) : equiv comp a b = true -> comp c a = comp c b.
Proof.
  unfold equiv. intros H. apply andb_prop in H as [Hab Hba].
  apply negb_true_iff in Hab, Hba.
  destruct (comp c a) eqn:Hca, (comp c b) eqn:Hcb; auto.
  - destruct (comp_cotrans c a b Hca) as [H|H]; congruence.
  - destruct (comp_cotrans c b a Hcb) as [H|H]; congruence.
Qed.

Lemma equiv_trans (a b c : K) :
  equiv comp a b = true -> equiv comp b c = true -> equiv comp a c = true.
Proof.
  intros Hab Hbc. unfold equiv.
  rewrite (equiv_comp_l a b c Hab), (equiv_comp_r a b c Hab).
  exact Hbc.
Qed.

Lemma comp_not_equiv (a b : K) : comp a b = true -> equiv comp a b = false.
Proof. intros H. unfold equiv. now rewrite H. Qed.

(** The equation of [insert] on a non-empty vector. *)
Lemma insert_cons (x e : K * V) (t : flat_map K V) :
  insert comp x (e :: t) =
  if comp (fst e) (fst x) then e :: insert comp x t
  else if comp (fst x) (fst e) then x :: e :: t
  else e :: t.
Proof.
  unfold insert. simpl. destruct (comp (fst e) (fst x)); simpl.
  - destruct (nth_error t (lower_bound comp t (fst x))); [|reflexivity].
    destruct (comp (fst x) (fst p)); reflexivity.
  - destruct (comp (fst x) (fst e)); reflexivity.
Qed.

Lemma insert_not_nil (x : K * V) (m : flat_map K V) : insert comp x m <> [].
Proof.
  destruct m as [|e t]; [discriminate|]. rewrite insert_cons.
  destruct (comp (fst e) (fst x)); [discriminate|].
  destruct (comp (fst x) (fst e)); discriminate.
Qed.

Lemma insert_In (x y : K * V) (m : flat_map K V) :
  In y (insert comp x m) -> y = x \/ In y m.
Proof.
  induction m as [|e t IH]; simpl.
  - intros [H|[]]; auto.
  - rewrite insert_cons. destruct (comp (fst e) (fst x)).
    + simpl. intros [H|H]; auto. destruct (IH H); auto.
    + destruct (comp (fst x) (fst e)); simpl; intuition auto.
Qed.

(** [insert] keeps the keys strictly ascending. *)
Lemma insert_ok (x : K * V) (m : flat_map K V) :
  flat_map_ok comp m = true -> flat_map_ok comp (insert comp x m) = true.
Proof.
  induction m as [|e t IH]; intros Hok.
  - reflexivity.
  - simpl in Hok. apply andb_prop in Hok as [Hall Ht].
    rewrite insert_cons. destruct (comp (fst e) (fst x)) eqn:Hex.
    + simpl. rewrite (IH Ht), andb_true_r.
      apply forallb_forall. intros y Hy.
      destruct (insert_In _ _ _ Hy) as [->|Hy']; [exact Hex|].
      rewrite forallb_forall in Hall. now apply Hall.
    + destruct (comp (fst x) (fst e)) eqn:Hxe.
      * simpl. rewrite Hxe, Hall, Ht. simpl. rewrite andb_true_r.
        apply forallb_forall. intros y Hy.
        rewrite forallb_forall in Hall. eapply comp_trans; eauto.
      * simpl. now rewrite Hall, Ht.
Qed.

(** A key greater than every key of the vector is appended. *)
Lemma insert_last (x : K * V) (m : flat_map K V) :
  forallb (fun e => comp (fst e) (fst x)) m = true -> insert comp x m = m ++ [x].
Proof.
  induction m as [|e t IH]; simpl; intros H.
  - reflexivity.
  - apply andb_prop in H as [He Ht]. rewrite insert_cons, He.
    now rewrite (IH Ht).
Qed.

Lemma ok_app_last (m : flat_map K V) (x : K * V) (t : flat_map K V) :
  flat_map_ok comp (m ++ x :: t) = true ->
  forallb (fun e => comp (fst e) (fst x)) m = true.
Proof.
  induction m as [|e m IH]; simpl; intros H; [reflexivity|].
  apply andb_prop in H as [Hall Hm]. rewrite (IH Hm), andb_true_r.
  rewrite forallb_forall in Hall. apply Hall. apply in_or_app. right. now left.
Qed.

(** Inserting the entries of a map in its own order rebuilds the map. *)
Lemma fold_insert_sorted (s acc : flat_map K V) :
  flat_map_ok comp (acc ++ s) = true ->
  fold_left (fun m p => insert comp p m) s acc = acc ++ s.
Proof.
  revert acc. induction s as [|x s IH]; intros acc Hok; simpl.
  - now rewrite app_nil_r.
  - rewrite (insert_last _ _ (ok_app_last _ _ _ Hok)).
    rewrite IH; rewrite <- app_assoc; simpl; auto.
Qed.

Lemma fold_insert_ok (ps acc : flat_map K V) :
  flat_map_ok comp acc = true -> flat_map_ok comp (fold_left (fun m p => insert comp p m) ps acc) = true.
Proof.
  revert acc. induction ps as [|p ps IH]; intros acc H; simpl; auto using insert_ok.
Qed.

(** In a map, at most the first of the keys that are not less than [n] is
    equivalent to [n]. *)
Lemma filter_equiv_above (n k : K) (t : flat_map K V) :
  forallb (fun e => comp k (fst e)) t = true ->
  comp n k = true \/ equiv comp k n = true ->
  filter (fun e => equiv comp (fst e) n) t = [].
Proof.
  intros Hall Hk. induction t as [|e t IH]; simpl; [reflexivity|].
  simpl in Hall. apply andb_prop in Hall as [He Ht].
  rewrite (IH Ht).
  assert (Hne : comp n (fst e) = true).
  { destruct Hk as [Hk|Hk].
    - eapply comp_trans; eauto.
    - now rewrite <- (equiv_comp_l k n (fst e) Hk). }
  rewrite equiv_sym, (comp_not_equiv _ _ Hne). reflexivity.
Qed.

(** The entries of a name after an insertion: the entry the map had for
    the name if it had one (first wins), else the inserted pair if it is of
    that name. *)
Lemma filter_insert (n : K) (x : K * V) (m : flat_map K V) :
  flat_map_ok comp m = true ->
  filter (fun e => equiv comp (fst e) n) (insert comp x m) =
  match filter (fun e => equiv comp (fst e) n) m with
  | [] => if equiv comp (fst x) n then [x] else []
  | l => l
  end.
Proof.
  induction m as [|e t IH]; intros Hok.
  - simpl. destruct (equiv comp (fst x) n); reflexivity.
  - simpl in Hok. apply andb_prop in Hok as [Hall Ht]. specialize (IH Ht).
    rewrite insert_cons. destruct (comp (fst e) (fst x)) eqn:Hex.
    + simpl. rewrite IH. destruct (equiv comp (fst e) n) eqn:Hen; [|reflexivity].
      rewrite (filter_equiv_above n (fst e) t Hall (or_intror Hen)).
      rewrite equiv_sym. rewrite equiv_sym in Hen.
      unfold equiv at 1. rewrite (equiv_comp_l n (fst e) (fst x) Hen), Hex. reflexivity.
    + destruct (comp (fst x) (fst e)) eqn:Hxe.
      * cbn [filter]. destruct (equiv comp (fst x) n) eqn:Hxn.
        -- assert (Hall' : forallb (fun e' => comp (fst x) (fst e')) (e :: t) = true).
           { simpl. rewrite Hxe. simpl. apply forallb_forall. intros y Hy.
             rewrite forallb_forall in Hall. eapply comp_trans; eauto. }
           pose proof (filter_equiv_above n (fst x) (e :: t) Hall' (or_intror Hxn)) as Hf.
           cbn [filter] in Hf. rewrite Hf. reflexivity.
        -- destruct (equiv comp (fst e) n); [reflexivity|].
           destruct (filter (fun e0 => equiv comp (fst e0) n) t); reflexivity.
      * assert (Hxe' : equiv comp (fst x) (fst e) = true)
          by (unfold equiv; now rewrite Hxe, Hex).
        simpl. destruct (equiv comp (fst e) n) eqn:Hen; [reflexivity|].
        assert (Hxn : equiv comp (fst x) n = false).
        { destruct (equiv comp (fst x) n) eqn:Hxn; [|reflexivity].
          rewrite equiv_sym in Hxe'.
          now rewrite (equiv_trans _ _ _ Hxe' Hxn) in Hen. }
        rewrite Hxn. destruct (filter (fun e0 => equiv comp (fst e0) n) t); reflexivity.
Qed.

(** Folding [insert] over pairs: for every name, the first pair of that
    name is the one the map holds. *)
Lemma filter_fold_insert (n : K) (ps acc : flat_map K V) :
  flat_map_ok comp acc = true ->
  filter (fun e => equiv comp (fst e) n) (fold_left (fun m p => insert comp p m) ps acc) =
  match filter (fun e => equiv comp (fst e) n) acc with
  | [] => match List.find (fun p => equiv comp (fst p) n) ps with
          | Some p => [p]
          | None => []
          end
  | l => l
  end.
Proof.
  revert acc. induction ps as [|p ps IH]; intros acc Hok; simpl.
  - destruct (filter (fun e => equiv comp (fst e) n) acc); reflexivity.
  - rewrite (IH _ (insert_ok p _ Hok)), (filter_insert n p _ Hok).
    destruct (filter (fun e => equiv comp (fst e) n) acc); [|reflexivity].
    destruct (equiv comp (fst p) n); reflexivity.
Qed.

(** Entries at different positions of a map have inequivalent keys. *)
Lemma ok_nth_less (m : flat_map K V) (i j : nat) (e1 e2 : K * V) :
  flat_map_ok comp m = true -> i < j ->
  nth_error m i = Some e1 -> nth_error m j = Some e2 ->
  comp (fst e1) (fst e2) = true.
Proof.
  revert i j. induction m as [|e t IH]; intros i j Hok Hij H1 H2.
  - destruct i; discriminate.
  - simpl in Hok. apply andb_prop in Hok as [Hall Ht].
    destruct j as [|j]; [lia|]. simpl in H2. destruct i as [|i].
    + simpl in H1. injection H1 as <-. rewrite forallb_forall in Hall.
      apply Hall. eapply nth_error_In; eauto.
    + simpl in H1. eapply (IH i j); eauto. lia.
Qed.

End FlatMapTheory.

(** ** [irc::sepstream]: the tokens a stream yields *)

Section SepStream.

Variable c : ascii.

Lemma find_from_app (P : ascii -> bool) (pre r : std_string) :
  find_from P (pre ++ r) (length pre) =
  option_map (Nat.add (length pre)) (find_from P r 0).
Proof.
  induction pre as [|a pre IH]; simpl.
  - now destruct (find_from P r 0).
  - rewrite IH. now destruct (find_from P r 0).
Qed.

Lemma find_from_skipn (P : ascii -> bool) (s : std_string) (b : nat) :
  b <= length s ->
  find_from P s b = option_map (Nat.add b) (find_from P (skipn b s) 0).
Proof.
  intros Hb. pose proof (find_from_app P (firstn b s) (skipn b s)) as H.
  rewrite firstn_skipn, length_firstn, Nat.min_l in H by exact Hb.
  exact H.
Qed.

Lemma split_on_not_nil (s : std_string) : split_on c s <> [].
Proof.
  destruct s as [|x t]; simpl; [discriminate|].
  destruct (Ascii.eqb x c); [discriminate|].
  destruct (split_on c t); discriminate.
Qed.

Lemma ends_empty_cons (f : std_string) (s : std_string) :
  ends_empty (f :: split_on c s) = ends_empty (split_on c s).
Proof.
  pose proof (split_on_not_nil s). simpl.
  destruct (split_on c s); [contradiction|reflexivity].
Qed.

(** Skipping the separators before a token. *)
Lemma skip_separators (r : std_string) :
  match find_from (fun x => negb (Ascii.eqb x c)) r 0 with
  | None =>
      filter (fun f => negb (empty f)) (split_on c r) = [] /\
      ends_empty (split_on c r) = true
  | Some k =>
      k < length r /\
      (exists x r', skipn k r = x :: r' /\ Ascii.eqb x c = false) /\
      filter (fun f => negb (empty f)) (split_on c r) =
        filter (fun f => negb (empty f)) (split_on c (skipn k r)) /\
      ends_empty (split_on c r) = ends_empty (split_on c (skipn k r))
  end.
Proof.
  induction r as [|x t IH]; cbn [find_from].
  - split; reflexivity.
  - destruct (Ascii.eqb x c) eqn:Hx; cbn [negb].
    + assert (Hs : split_on c (x :: t) = [] :: split_on c t)
        by (simpl; now rewrite Hx).
      rewrite Hs, ends_empty_cons. cbn [filter empty negb].
      destruct (find_from (fun x0 => negb (Ascii.eqb x0 c)) t 0) as [k|];
        cbn [option_map].
      * destruct IH as (Hk & Hx' & Hf & He). repeat split; simpl; auto. lia.
      * exact IH.
    + repeat split; simpl; try lia. exists x, t. auto.
Qed.

(** The token that starts at the cursor. *)
Lemma take_token (r : std_string) :
  match find_from (fun x => Ascii.eqb x c) r 0 with
  | None => split_on c r = [r]
  | Some j =>
      j < length r /\
      split_on c r = firstn j r :: split_on c (skipn (S j) r)
  end.
Proof.
  induction r as [|x t IH]; cbn [find_from].
  - reflexivity.
  - destruct (Ascii.eqb x c) eqn:Hx.
    + split; simpl; [lia|]. now rewrite Hx.
    + destruct (find_from (fun x0 => Ascii.eqb x0 c) t 0) as [j|];
        cbn [option_map].
      * destruct IH as (Hj & Hs). split; simpl; [lia|].
        rewrite Hx. simpl in Hs. rewrite Hs. reflexivity.
      * simpl. rewrite Hx, IH. reflexivity.
Qed.

(** [GetToken] on a stream that skips empty tokens: it fails when no token
    is left, and otherwise yields the next token and moves the cursor
    forward, past the token. *)
Lemma GetToken_spec (ts : sepstream) :
  sep ts = c -> allow_empty ts = false -> StreamEnd ts = false ->
  match fst (remaining ts) with
  | [] =>
      snd (remaining ts) = true /\
      GetToken ts = (false, [], set_pos ts (length (tokens ts) + 1))
  | w :: ws =>
      exists p', GetToken ts = (true, w, set_pos ts p') /\
                 pos ts < p' /\
                 remaining (set_pos ts p') = (ws, snd (remaining ts))
  end.
Proof.
  destruct ts as [s sp p ae]. cbn [sep allow_empty tokens pos].
  intros -> -> Hend. unfold StreamEnd in Hend. cbn [tokens pos] in Hend.
  apply Nat.ltb_ge in Hend.
  unfold remaining, GetToken, StreamEnd. cbn [tokens pos sep allow_empty set_pos].
  rewrite (proj2 (Nat.leb_le _ _) Hend), (proj2 (Nat.ltb_ge _ _) Hend).
  unfold find_first_not_of. rewrite (find_from_skipn _ s p Hend).
  pose proof (skip_separators (skipn p s)) as HB.
  destruct (find_from (fun x => negb (Ascii.eqb x c)) (skipn p s) 0) as [k|];
    cbn [option_map].
  - destruct HB as (Hk & (x & r' & Hr1 & Hx) & Hf & He).
    rewrite length_skipn in Hk. rewrite skipn_skipn in Hr1, Hf, He.
    rewrite (Nat.add_comm k p) in Hr1, Hf, He.
    cbn [fst snd]. rewrite Hf, He.
    unfold find, substr. rewrite (find_from_skipn _ s (p + k)) by lia.
    pose proof (take_token (skipn (p + k) s)) as HC.
    assert (Hlen : length (skipn (p + k) s) = length s - (p + k))
      by apply length_skipn.
    destruct (find_from (fun x0 => Ascii.eqb x0 c) (skipn (p + k) s) 0) as [j|] eqn:Hfind;
      cbn [option_map].
    + destruct HC as (Hj & Hs). rewrite Hs.
      assert (Hj0 : j <> 0).
      { intros ->. rewrite Hr1 in Hfind. simpl in Hfind. rewrite Hx in Hfind.
        destruct (find_from (fun x0 => Ascii.eqb x0 c) r' 0); discriminate. }
      assert (Hw : empty (firstn j (skipn (p + k) s)) = false).
      { rewrite Hr1. destruct j; [congruence|reflexivity]. }
      cbn [filter]. rewrite Hw. cbn [negb].
      exists (p + k + j + 1). split; [|split].
      * replace (p + k + j - (p + k)) with j by lia. reflexivity.
      * lia.
      * rewrite (proj2 (Nat.leb_le (p + k + j + 1) (length s))) by lia.
        rewrite skipn_skipn.
        replace (S j + (p + k)) with (p + k + j + 1) by lia.
        rewrite ends_empty_cons. reflexivity.
    + rewrite HC. cbn [filter ends_empty].
      assert (Hw : empty (skipn (p + k) s) = false) by (now rewrite Hr1).
      rewrite Hw. cbn [negb].
      exists (length s + 1). split; [|split].
      * rewrite <- Hlen, firstn_all. reflexivity.
      * lia.
      * rewrite (proj2 (Nat.leb_gt (length s + 1) (length s))) by lia.
        reflexivity.
  - destruct HB as (Hf & He). cbn [fst snd]. rewrite Hf, He. auto.
Qed.

End SepStream.

(** ** The tag store codec *)

Section Codec.

Variable cm : ascii -> ascii.

(** The loop of [FromNetwork] decodes the tokens the stream has left, and
    does so within its bound of iterations. *)
Lemma FromNetwork_loop_spec (fuel : nat) :
  forall (ts : sepstream) (list : CustomTagMap),
    sep ts = " "%char -> allow_empty ts = false ->
    S (length (tokens ts)) - pos ts < 2 * fuel ->
    FromNetwork_loop cm fuel ts list =
    Some (decode_tokens cm (fst (remaining ts)) (snd (remaining ts)) list).
Proof.
  induction fuel as [|fuel IH]; intros ts list Hsep Hae Hfuel; [lia|].
  cbn [FromNetwork_loop]. destruct (StreamEnd ts) eqn:Hend.
  - unfold StreamEnd in Hend. apply Nat.ltb_lt in Hend.
    unfold remaining. rewrite (proj2 (Nat.leb_gt _ _) Hend). reflexivity.
  - pose proof (GetToken_spec " "%char ts Hsep Hae Hend) as H1.
    destruct (fst (remaining ts)) as [|w ws] eqn:Hw.
    + destruct H1 as (Htrail & ->). cbn. now rewrite Htrail.
    + destruct H1 as (p1 & -> & Hp1 & Hrem1). cbn [negb].
      destruct (StreamEnd (set_pos ts p1)) eqn:Hend1.
      * unfold GetToken at 1. rewrite Hend1. cbn [negb].
        unfold StreamEnd in Hend1. cbn [set_pos tokens pos] in Hend1.
        apply Nat.ltb_lt in Hend1. unfold remaining in Hrem1.
        cbn [set_pos tokens pos sep] in Hrem1.
        rewrite (proj2 (Nat.leb_gt _ _) Hend1) in Hrem1.
        injection Hrem1 as <- _. reflexivity.
      * pose proof (GetToken_spec " "%char (set_pos ts p1) Hsep Hae Hend1) as H2.
        rewrite Hrem1 in H2. cbn [fst snd] in H2.
        destruct ws as [|v ws].
        -- destruct H2 as (_ & ->). reflexivity.
        -- destruct H2 as (p2 & -> & Hp2 & Hrem2). cbn [negb].
           unfold StreamEnd in Hend1. cbn [set_pos tokens pos] in Hend1, Hp2.
           apply Nat.ltb_ge in Hend1.
           rewrite IH; cbn [set_pos tokens pos sep allow_empty]; auto; [|lia].
           cbn [set_pos tokens pos sep allow_empty] in Hrem2.
           unfold remaining at 1 2. cbn [tokens pos sep].
           unfold remaining in Hrem2. cbn [tokens pos sep] in Hrem2.
           rewrite Hrem2. reflexivity.
Qed.

Lemma FromNetwork_loop_payload (value : std_string) :
  FromNetwork_loop cm (S (length value)) (spacesepstream value) [] =
  Some (decode_tokens cm (payload_tokens value) (trailing_separator value) []).
Proof.
  rewrite FromNetwork_loop_spec; cbn [spacesepstream sep allow_empty tokens pos];
    auto; try lia.
Qed.

(** Induction over a list two elements at a time. *)
Lemma pairs_ind (A : Type) (P : list A -> Prop) :
  P [] -> (forall x, P [x]) -> (forall x y l, P l -> P (x :: y :: l)) ->
  forall l, P l.
Proof.
  intros H0 H1 H2 l.
  assert (H : P l /\ forall x, P (x :: l)).
  { induction l as [|y l [IHa IHb]]; split; auto. }
  apply H.
Qed.

Lemma decode_tokens_pairs (ws : list std_string) (trailing : bool) :
  forall list : CustomTagMap,
    decode_tokens cm ws trailing list =
    match pairs_of ws with
    | None => Malformed
    | Some ps =>
        if trailing then Malformed
        else Parsed (fold_left (fun m p => insert (insensitive_swo cm) p m) ps list)
    end.
Proof.
  induction ws as [| x | n v ws IH] using pairs_ind; intros list;
    cbn [decode_tokens pairs_of]; try reflexivity.
  rewrite IH. destruct (pairs_of ws); reflexivity.
Qed.

Lemma pairs_of_odd (ws : list std_string) :
  Nat.odd (length ws) = true -> pairs_of ws = None.
Proof.
  induction ws as [| x | n v ws IH] using pairs_ind; intros H.
  - discriminate.
  - reflexivity.
  - cbn [pairs_of]. rewrite IH; [reflexivity|].
    cbn [length] in H. now rewrite Nat.odd_succ_succ in H.
Qed.

Lemma fold_insert_not_nil (ps : list (std_string * std_string)) (acc : CustomTagMap) :
  (ps <> [] \/ acc <> []) ->
  fold_left (fun m p => insert (insensitive_swo cm) p m) ps acc <> [].
Proof.
  revert acc. induction ps as [|p ps IH]; intros acc H; simpl.
  - destruct H; congruence.
  - apply IH. right. apply insert_not_nil.
Qed.

(** When no field is left empty at the end there is a token. *)
Lemma no_trailing_has_token (value : std_string) :
  trailing_separator value = false -> payload_tokens value <> [].
Proof.
  unfold trailing_separator, payload_tokens.
  generalize (split_on_not_nil " "%char value).
  generalize (split_on " "%char value) as fs.
  induction fs as [|f fs IH]; [congruence|]. intros _.
  destruct fs as [|g fs].
  - destruct f; simpl; [discriminate|]. intros _. discriminate.
  - intros H. cbn [filter]. destruct (negb (empty f)); [discriminate|].
    apply IH; [discriminate|exact H].
Qed.

(** [FromNetwork] in terms of the tokens of the payload. *)
Lemma FromNetwork_spec (user : User) (value : std_string) :
  FromNetwork cm user value =
  Some
    match decode_tokens cm (payload_tokens value) (trailing_separator value) [] with
    | Malformed => (user, [malformed_line user value])
    | Parsed [] => (unset user, [])
    | Parsed list => (set user list, [])
    end.
Proof.
  unfold FromNetwork. rewrite FromNetwork_loop_payload.
  destruct (decode_tokens cm (payload_tokens value) (trailing_separator value) [])
    as [|[|e l]]; reflexivity.
Qed.

(** [FromNetwork] returns, for every user and payload. *)
Lemma FromNetwork_returns (user : User) (value : std_string) :
  exists r, FromNetwork cm user value = Some r.
Proof. rewrite FromNetwork_spec. eauto. Qed.

(** The loop never finishes with an empty list: the [else] branch of line
    67, which unsets the item, is not reached. *)
Lemma decode_tokens_not_empty (value : std_string) :
  decode_tokens cm (payload_tokens value) (trailing_separator value) [] <> Parsed [].
Proof.
  rewrite decode_tokens_pairs.
  destruct (pairs_of (payload_tokens value)) as [ps|] eqn:Hps; [|discriminate].
  destruct (trailing_separator value) eqn:Htr; [discriminate|].
  intros H. injection H as H. revert H. apply fold_insert_not_nil. left.
  intros ->. apply (no_trailing_has_token value Htr).
  destruct (payload_tokens value) as [|a [|b l]]; [reflexivity|discriminate|].
  cbn [pairs_of] in Hps. destruct (pairs_of l); discriminate.
Qed.

(** A payload without tokens is reported as malformed and leaves the user
    as it is. *)
Lemma FromNetwork_no_tokens (user : User) (value : std_string) :
  payload_tokens value = [] ->
  FromNetwork cm user value = Some (user, [malformed_line user value]).
Proof.
  intros H. rewrite FromNetwork_spec, H. cbn [decode_tokens].
  destruct (trailing_separator value) eqn:Htr; [reflexivity|].
  now destruct (no_trailing_has_token value Htr).
Qed.

(** After [FromNetwork] the store of the user is the one it had before
    (malformed payload) or a non-empty one. *)
Lemma FromNetwork_store (user : User) (value : std_string) :
  exists u logs, FromNetwork cm user value = Some (u, logs) /\
    ((u = user /\ logs <> []) \/
     (exists list, list <> [] /\ get u = Some list /\ logs = [])).
Proof.
  rewrite FromNetwork_spec.
  pose proof (decode_tokens_not_empty value) as Hne.
  destruct (decode_tokens cm (payload_tokens value) (trailing_separator value) [])
    as [|[|e l]].
  - do 2 eexists. split; [reflexivity|]. left. split; [reflexivity|discriminate].
  - congruence.
  - do 2 eexists. split; [reflexivity|]. right. exists (e :: l).
    repeat split. discriminate.
Qed.

End Codec.

(** ** The string [ToNetwork] produces *)

Section Encode.

Lemma split_on_token (t : std_string) :
  no_space t = true -> split_on " "%char t = [t].
Proof.
  induction t as [|x t IH]; simpl; [reflexivity|].
  intros H. apply andb_prop in H as [Hx Ht]. apply negb_true_iff in Hx.
  rewrite Hx, (IH Ht). reflexivity.
Qed.

Lemma split_on_token_sep (t r : std_string) :
  no_space t = true ->
  split_on " "%char (t ++ " "%char :: r) = t :: split_on " "%char r.
Proof.
  induction t as [|x t IH]; simpl; [reflexivity|].
  intros H. apply andb_prop in H as [Hx Ht]. apply negb_true_iff in Hx.
  rewrite Hx, (IH Ht). reflexivity.
Qed.

Lemma ToNetwork_loop_false (s : CustomTagMap) (buf : std_string) :
  ToNetwork_loop false s buf = buf ++ more_pairs s.
Proof.
  revert buf. induction s as [|e s IH]; intros buf; simpl.
  - now rewrite app_nil_r.
  - rewrite IH. unfold more_pairs. simpl.
    repeat rewrite <- app_assoc. reflexivity.
Qed.

Lemma ToNetwork_cons (e : std_string * std_string) (s : CustomTagMap) :
  ToNetwork (e :: s) = fst e ++ " "%char :: snd e ++ more_pairs s.
Proof.
  unfold ToNetwork. simpl. rewrite ToNetwork_loop_false.
  repeat rewrite <- app_assoc. reflexivity.
Qed.

Lemma split_on_more_pairs (s : CustomTagMap) (v : std_string) :
  tokens_ok s = true -> no_space v = true ->
  split_on " "%char (v ++ more_pairs s) = v :: flatten s.
Proof.
  revert v. induction s as [|e s IH]; intros v Hs Hv.
  - unfold more_pairs. simpl. rewrite app_nil_r. now apply split_on_token.
  - simpl in Hs. apply andb_prop in Hs as [He Hs].
    apply andb_prop in He as [Hk Hw].
    unfold token_ok in Hk, Hw.
    apply andb_prop in Hk as [_ Hk]. apply andb_prop in Hw as [_ Hw].
    change (more_pairs (e :: s))
      with ((" "%char :: fst e ++ " "%char :: snd e) ++ more_pairs s).
    cbn [app]. rewrite (split_on_token_sep v _ Hv).
    rewrite <- app_assoc. cbn [app].
    rewrite (split_on_token_sep (fst e) _ Hk).
    rewrite (IH (snd e) Hs Hw). reflexivity.
Qed.

Lemma split_on_ToNetwork (s : CustomTagMap) :
  s <> [] -> tokens_ok s = true ->
  split_on " "%char (ToNetwork s) = flatten s.
Proof.
  destruct s as [|e s]; [congruence|]. intros _ Hs.
  rewrite ToNetwork_cons. simpl in Hs. apply andb_prop in Hs as [He Hs].
  apply andb_prop in He as [Hk Hw]. unfold token_ok in Hk, Hw.
  apply andb_prop in Hk as [_ Hk]. apply andb_prop in Hw as [_ Hw].
  rewrite (split_on_token_sep (fst e) _ Hk).
  rewrite (split_on_more_pairs s (snd e) Hs Hw). reflexivity.
Qed.

Lemma flatten_tokens (s : CustomTagMap) :
  tokens_ok s = true ->
  filter (fun f => negb (empty f)) (flatten s) = flatten s /\
  ends_empty (flatten s) = false.
Proof.
  induction s as [|e s IH]; intros Hs; [split; reflexivity|].
  simpl in Hs. apply andb_prop in Hs as [He Hs].
  apply andb_prop in He as [Hk Hw]. unfold token_ok in Hk, Hw.
  apply andb_prop in Hk as [Hk _]. apply andb_prop in Hw as [Hw _].
  destruct (IH Hs) as [IHf IHe].
  change (flatten (e :: s)) with (fst e :: snd e :: flatten s).
  cbn [filter]. rewrite Hk, Hw, IHf. split; [reflexivity|].
  cbn [ends_empty]. destruct (flatten s) as [|f fs] eqn:Hfl.
  - now apply negb_true_iff in Hw.
  - exact IHe.
Qed.

Lemma pairs_of_flatten (s : CustomTagMap) : pairs_of (flatten s) = Some s.
Proof.
  induction s as [|[k v] s IH]; [reflexivity|].
  change (flatten ((k, v) :: s)) with (k :: v :: flatten s).
  cbn [pairs_of]. now rewrite IH.
Qed.

End Encode.

(** ** The claims on the codec *)

Section CodecClaims.

Variable cm : ascii -> ascii.

Lemma swo_same_keys (a b : std_string) :
  map (mapped cm) a = map (mapped cm) b -> insensitive_swo cm a b = false.
Proof.
  revert b. induction a as [|x a IH]; intros [|y b] H; try discriminate.
  - reflexivity.
  - simpl in H. injection H as Hx Hab. simpl.
    rewrite Hx, Nat.ltb_irrefl. now apply IH.
Qed.

Lemma equal_ignoring_case_same_name (a b : std_string) :
  folds_ascii_case cm -> equal_ignoring_case a b -> same_name cm a b = true.
Proof.
  intros Hfold Heq.
  assert (H : map (mapped cm) a = map (mapped cm) b).
  { assert (Hm : forall s, map (mapped cm) (map ascii_case_insensitive_map s)
                           = map (mapped cm) s).
    { intros s. rewrite map_map. apply map_ext. intros x. unfold mapped.
      now rewrite Hfold. }
    rewrite <- (Hm a), <- (Hm b). now rewrite Heq. }
  unfold same_name, equiv.
  now rewrite (swo_same_keys a b H), (swo_same_keys b a (eq_sym H)).
Qed.

Lemma find_app_none (A : Type) (f : A -> bool) (l1 l2 : list A) :
  (forall x, In x l1 -> f x = false) ->
  List.find f (l1 ++ l2) = List.find f l2.
Proof.
  induction l1 as [|x l1 IH]; intros H; simpl; [reflexivity|].
  rewrite (H x (or_introl eq_refl)). apply IH. intros y Hy. apply H. now right.
Qed.

(** C1 (as amended).  Round trip of the codec: for every tag store with at
    least one entry whose names and values are non-empty and contain no
    space, [FromNetwork] on the string that [ToNetwork] produces installs a
    store with identical entries in identical order. *)
Theorem roundtrip_decode_encode (user : User) (s : CustomTagMap) :
  flat_map_ok (insensitive_swo cm) s = true ->
  s <> [] ->
  tokens_ok s = true ->
  FromNetwork cm user (ToNetwork s) = Some (set user s, []).
Proof.
  intros Hok Hne Htok. rewrite FromNetwork_spec.
  unfold payload_tokens, trailing_separator.
  rewrite (split_on_ToNetwork s Hne Htok).
  destruct (flatten_tokens s Htok) as [-> ->].
  rewrite decode_tokens_pairs, pairs_of_flatten.
  rewrite (fold_insert_sorted _ _ (insensitive_swo cm) s [] Hok).
  destruct s; [congruence|reflexivity].
Qed.

(** C2.  Atomicity of decode on malformed input: for every payload with an
    odd number of space-separated tokens and every prior state of the
    user, [FromNetwork] returns with the user exactly as it was (the tag
    store it had, or none), having logged the payload as malformed. *)
Theorem odd_payload_keeps_state (user : User) (value : std_string) :
  Nat.odd (length (payload_tokens value)) = true ->
  FromNetwork cm user value = Some (user, [malformed_line user value]).
Proof.
  intros Hodd. rewrite FromNetwork_spec, decode_tokens_pairs.
  now rewrite (pairs_of_odd _ Hodd).
Qed.

(** C10 (as amended).  Duplicate names resolve first-wins under the
    case-insensitive comparison: for every payload with an even number of
    tokens that does not end with a space, [FromNetwork] installs a store;
    when two of its pairs have names that are equal ignoring ASCII case, the
    store has exactly one entry of that name, which is the first pair of
    the name; and no two entries of the store have names that are equal
    ignoring case. *)
Theorem duplicate_names_first_wins (user : User) (value : std_string)
  (ps : list (std_string * std_string)) :
  folds_ascii_case cm ->
  trailing_separator value = false ->
  pairs_of (payload_tokens value) = Some ps ->
  exists m,
    FromNetwork cm user value = Some (set user m, []) /\
    (forall before n1 v1 between n2 v2 after,
        ps = before ++ (n1, v1) :: between ++ (n2, v2) :: after ->
        equal_ignoring_case n1 n2 ->
        (forall p, In p before -> same_name cm (fst p) n1 = false) ->
        filter (fun e => same_name cm (fst e) n1) m = [(n1, v1)] /\
        filter (fun e => same_name cm (fst e) n2) m = [(n1, v1)]) /\
    (forall i j e1 e2,
        i <> j -> nth_error m i = Some e1 -> nth_error m j = Some e2 ->
        ~ equal_ignoring_case (fst e1) (fst e2)).
Proof.
  intros Hfold Htr Hps.
  set (m := fold_left (fun m p => insert (insensitive_swo cm) p m) ps []).
  assert (Hok : flat_map_ok (insensitive_swo cm) m = true)
    by (apply fold_insert_ok; [apply swo_trans|reflexivity]).
  exists m. split; [|split].
  - rewrite FromNetwork_spec. pose proof (decode_tokens_not_empty cm value) as Hne.
    rewrite decode_tokens_pairs, Hps, Htr in *. fold m in Hne |- *.
    destruct m; [congruence|reflexivity].
  - intros before n1 v1 between n2 v2 after -> Heq Hfirst.
    pose proof (equal_ignoring_case_same_name n1 n2 Hfold Heq) as H12.
    assert (Hfind : forall n, same_name cm n1 n = true ->
              filter (fun e => same_name cm (fst e) n) m = [(n1, v1)]).
    { intros n Hn. unfold m, same_name.
      rewrite (filter_fold_insert _ _ (insensitive_swo cm)
                 (swo_trans cm) (swo_cotrans cm) n _ [] eq_refl).
      cbn [filter]. rewrite find_app_none.
      - cbn [List.find fst]. unfold same_name in Hn. now rewrite Hn.
      - intros p Hp. specialize (Hfirst p Hp). unfold same_name in Hfirst, Hn.
        destruct (equiv (insensitive_swo cm) (fst p) n) eqn:Hpn; [|reflexivity].
        rewrite (equiv_sym _ (insensitive_swo cm)) in Hn.
        now rewrite (equiv_trans _ (insensitive_swo cm) (swo_cotrans cm)
                       _ _ _ Hpn Hn) in Hfirst. }
    split; apply Hfind; [|exact H12].
    apply (equiv_refl _ (insensitive_swo cm) (swo_irrefl cm)).
  - intros i j e1 e2 Hij H1 H2 Heq.
    assert (Hlt : forall i j e1 e2, i < j ->
              nth_error m i = Some e1 -> nth_error m j = Some e2 ->
              same_name cm (fst e1) (fst e2) = false).
    { intros i' j' a b Hlt Ha Hb. unfold same_name, equiv.
      now rewrite (ok_nth_less _ _ (insensitive_swo cm)
                     m i' j' a b Hok Hlt Ha Hb). }
    pose proof (equal_ignoring_case_same_name _ _ Hfold Heq) as Hs.
    destruct (Nat.lt_total i j) as [Hlt'|[->|Hgt]]; [|congruence|].
    + now rewrite (Hlt i j e1 e2 Hlt' H1 H2) in Hs.
    + unfold same_name in Hs. rewrite equiv_sym in Hs.
      unfold same_name in Hlt. now rewrite (Hlt j i e2 e1 Hgt H2 H1) in Hs.
Qed.

End CodecClaims.

(** ** The claims on subject resolution, filtering and configuration *)

Section EngineClaims.

Variable cm : ascii -> ascii.
Variable ServerInstance : InspIRCd.

(** C4.  Resolution precedence: for every outgoing message whose source is
    a user that is not a server, the user whose tags are attached is that
    source user, whatever the special-message table holds for the command
    and whatever the parameters are; the tags attached are those of the
    source user. *)
Theorem source_user_takes_precedence (ct : CustomTags) (msg : Message)
  (user : User) :
  GetSourceUser msg = Some user ->
  IS_SERVER user = false ->
  OnPopulateTags_user cm ServerInstance ct msg = Some user /\
  OnPopulateTags cm ServerInstance ct msg =
    match get user with
    | None => []
    | Some tags =>
        map (fun e => mk_AddTag (vendor ct ++ str "/" ++ fst e)
                        (mk_MessageTagData (this ct) (snd e))) tags
    end.
Proof.
  intros Hsrc Hserver.
  assert (H : OnPopulateTags_user cm ServerInstance ct msg = Some user)
    by (unfold OnPopulateTags_user; now rewrite Hsrc, Hserver).
  split; [exact H|]. unfold OnPopulateTags. now rewrite H.
Qed.

Lemma UserFromMsg_effective (ct : CustomTags) (msg : Message) :
  UserFromMsg cm ServerInstance ct msg =
  match effective_position cm ct msg with
  | None => None
  | Some p =>
      if (Z.of_nat (length (GetParams msg)) <=? p)%Z then None
      else FindNickOnly ServerInstance (nth (Z.to_nat p) (GetParams msg) [])
  end.
Proof.
  unfold UserFromMsg, effective_position.
  destruct (flat_find (insensitive_swo cm) (GetCommand msg) (specialmsgs ct));
    [|reflexivity].
  destruct (equals cm (GetCommand msg) (str "354")); [|reflexivity].
  destruct (whox_index ct =? -1)%Z; reflexivity.
Qed.

(** C5.  Special-message resolution at a fixed index: with position 1
    configured for the command 321, a 321 message without a user source and
    with the parameters Alice, Bob, extra resolves to the user the
    directory has for the nick Bob; and every message whose parameter list
    has fewer elements than the effective position plus one resolves to no
    user. *)
Theorem special_message_resolution :
  (forall (ct : CustomTags) (k : std_string) (source : option User),
      flat_find (insensitive_swo cm) (str "321") (specialmsgs ct) = Some (k, 1%Z) ->
      equals cm (str "321") (str "354") = false ->
      match source with Some u => IS_SERVER u = true | None => True end ->
      OnPopulateTags_user cm ServerInstance ct
        (mk_Message (str "321") [str "Alice"; str "Bob"; str "extra"] source)
      = FindNickOnly ServerInstance (str "Bob")) /\
  (forall (ct : CustomTags) (msg : Message) (p : Z),
      effective_position cm ct msg = Some p ->
      (Z.of_nat (length (GetParams msg)) < p + 1)%Z ->
      UserFromMsg cm ServerInstance ct msg = None).
Proof.
  split.
  - intros ct k source Hfind Hne Hsrc.
    assert (H : UserFromMsg cm ServerInstance ct
                  (mk_Message (str "321") [str "Alice"; str "Bob"; str "extra"] source)
                = FindNickOnly ServerInstance (str "Bob")).
    { unfold UserFromMsg. cbn [GetCommand GetParams]. rewrite Hfind, Hne.
      reflexivity. }
    unfold OnPopulateTags_user. cbn [GetSourceUser].
    destruct source as [u|]; [|exact H]. now rewrite Hsrc.
  - intros ct msg p Hp Hlen. rewrite UserFromMsg_effective, Hp.
    destruct (Z.leb_spec (Z.of_nat (length (GetParams msg))) p); [reflexivity|lia].
Qed.

Lemma to_int_small (p : Z) : (0 <= p < 2 ^ 31)%Z -> to_int p = p.
Proof.
  intros H. unfold to_int. rewrite Z.mod_small; lia.
Qed.

(** C6.  The WHOX field position: after [OnWhoLine] has recorded the
    position [p] of the nick field, a 354 message that the table lists
    resolves its user from the parameter at position [p + 1]; while no
    position is recorded (the state the constructor leaves, which
    [ReadConfig] keeps) and after an [OnWhoLine] whose request has no nick
    field, every 354 message resolves to no user. *)
Theorem whox_field_position :
  (forall (ct : CustomTags) (request : Who_Request) (p : Z) (msg : Message)
          (e : std_string * Z),
      GetFieldIndex request "n"%char = Some p ->
      (0 <= p < 2 ^ 31 - 1)%Z ->
      equals cm (GetCommand msg) (str "354") = true ->
      flat_find (insensitive_swo cm) (GetCommand msg) (specialmsgs ct) = Some e ->
      (p + 1 < Z.of_nat (length (GetParams msg)))%Z ->
      UserFromMsg cm ServerInstance (OnWhoLine ct request) msg =
      FindNickOnly ServerInstance (nth (Z.to_nat (p + 1)) (GetParams msg) [])) /\
  (forall (self : MessageTagProvider) (cap : Cap_Reference),
      whox_index (CustomTags_new self cap) = (-1)%Z) /\
  (forall (ct ct' : CustomTags),
      ReadConfig cm ServerInstance ct = Returned ct' ->
      whox_index ct' = whox_index ct) /\
  (forall (ct : CustomTags) (msg : Message),
      whox_index ct = (-1)%Z ->
      equals cm (GetCommand msg) (str "354") = true ->
      UserFromMsg cm ServerInstance ct msg = None) /\
  (forall (ct : CustomTags) (request : Who_Request) (msg : Message),
      GetFieldIndex request "n"%char = None ->
      equals cm (GetCommand msg) (str "354") = true ->
      UserFromMsg cm ServerInstance (OnWhoLine ct request) msg = None).
Proof.
  assert (Hnone : forall (ct : CustomTags) (msg : Message),
             whox_index ct = (-1)%Z ->
             equals cm (GetCommand msg) (str "354") = true ->
             UserFromMsg cm ServerInstance ct msg = None).
  { intros ct msg Hw H354. unfold UserFromMsg. rewrite H354, Hw.
    now destruct (flat_find (insensitive_swo cm) (GetCommand msg) (specialmsgs ct)). }
  repeat split.
  - intros ct request p msg e Hreq Hp H354 Hfind Hlen.
    unfold UserFromMsg, OnWhoLine. cbn [specialmsgs whox_index].
    rewrite Hfind, H354, Hreq, to_int_small by lia.
    destruct (Z.eqb_spec p (-1)); [lia|].
    unfold to_size_t. rewrite Z.mod_small by lia.
    destruct (Z.leb_spec (Z.of_nat (length (GetParams msg))) (p + 1)); [lia|].
    reflexivity.
  - intros ct ct' H. unfold ReadConfig in H.
    destruct (ReadConfig_loop cm (ConfTags ServerInstance (str "specialmsg")) []);
      [discriminate|].
    injection H as <-. reflexivity.
  - exact Hnone.
  - intros ct request msg Hreq H354. apply Hnone; [|exact H354].
    unfold OnWhoLine. rewrite Hreq. reflexivity.
Qed.

(** C7 (as amended).  Recipient filtering: [ShouldSendTag] returns true if
    and only if the message-tags capability is provided and the connection
    has it enabled; the tag it is asked about, and so the owner of the
    tag, has no part in the answer. *)
Theorem ShouldSendTag_is_the_capability (ct : CustomTags) (user : LocalUser)
  (tagdata : MessageTagData) :
  (ShouldSendTag ct user tagdata = true <->
   exists cap, ctctagcap ct = Some cap /\ cap user = true) /\
  (forall tagdata' : MessageTagData,
      ShouldSendTag ct user tagdata' = ShouldSendTag ct user tagdata).
Proof.
  unfold ShouldSendTag, Cap_get. split; [|reflexivity].
  destruct (ctctagcap ct) as [cap|]; split.
  - intros H. now exists cap.
  - intros (cap' & Hc & H). now injection Hc as ->.
  - discriminate.
  - intros (cap' & Hc & _). discriminate.
Qed.

Lemma ReadConfig_loop_throws (tags : list ConfigTag) :
  forall table : SpecialMessageMap,
    (exists tag, In tag tags /\
       (readString tag (str "command") = None \/
        readString tag (str "command") = Some [])) ->
    exists e, ReadConfig_loop cm tags table = inl e.
Proof.
  induction tags as [|tag tags IH]; intros table (bad & Hin & Hbad).
  - destruct Hin.
  - cbn [ReadConfig_loop].
    destruct (empty (getString tag (str "command") [] 0)) eqn:He; [eauto|].
    destruct Hin as [->|Hin].
    + unfold getString in He. destruct Hbad as [Hb|Hb]; rewrite Hb in He;
        discriminate.
    + apply IH. exists bad. auto.
Qed.

(** C9.  Configuration reload atomicity: if a [<specialmsg>] tag of the
    configuration has no command, or an empty one, [ReadConfig] throws and
    leaves the engine as it was, the special-message table and the vendor
    prefix included; no table built from the tags before the offending one
    is installed. *)
Theorem reload_rejected_keeps_configuration (ctags : CustomTags) :
  (exists tag, In tag (ConfTags ServerInstance (str "specialmsg")) /\
     (readString tag (str "command") = None \/
      readString tag (str "command") = Some [])) ->
  exists e, ReadConfig cm ServerInstance ctags = Thrown e ctags.
Proof.
  intros H. unfold ReadConfig.
  destruct (ReadConfig_loop_throws _ [] H) as (e & ->). now exists e.
Qed.

End EngineClaims.

(** ** The claims at concrete inputs *)

Lemma ascii_map_folds_case : folds_ascii_case ascii_case_insensitive_map.
Proof.
  intros c. destruct c as [[] [] [] [] [] [] [] []]; reflexivity.
Qed.

(** C1, the claim as stated fails: the store with the one entry [a] whose
    value is empty is a tag store without white space in its name and value,
    yet [FromNetwork] rejects the string [ToNetwork] writes for it and
    installs nothing. *)
Lemma roundtrip_fails_on_empty_value :
  flat_map_ok (insensitive_swo ascii_case_insensitive_map) [(str "a", str "")] = true /\
  no_whitespace [(str "a", str "")] = true /\
  ToNetwork [(str "a", str "")] = str "a " /\
  FromNetwork ascii_case_insensitive_map Alice (ToNetwork [(str "a", str "")]) =
    Some (Alice, [malformed_line Alice (str "a ")]) /\
  FromNetwork ascii_case_insensitive_map Alice (ToNetwork [(str "a", str "")]) <>
    Some (set Alice [(str "a", str "")], []).
Proof.
  repeat split; try reflexivity. vm_compute. discriminate.
Qed.

Lemma roundtrip_decode_encode_witness :
  FromNetwork ascii_case_insensitive_map Alice (ToNetwork bob_tags) =
  Some (set Alice bob_tags, []).
Proof.
  apply (roundtrip_decode_encode ascii_case_insensitive_map Alice bob_tags).
  - reflexivity.
  - vm_compute. discriminate.
  - reflexivity.
Defined.

Lemma odd_payload_keeps_state_witness :
  FromNetwork ascii_case_insensitive_map Bob (str "foo bar baz") =
  Some (Bob, [malformed_line Bob (str "foo bar baz")]).
Proof.
  apply (odd_payload_keeps_state ascii_case_insensitive_map Bob (str "foo bar baz")).
  reflexivity.
Defined.

(** C3, at the failing input: Bob has a tag store and the empty payload
    arrives for him.  The payload has no token, so it yields zero pairs;
    [FromNetwork] reports it as malformed and Bob keeps his store, where the
    claim has the store removed. *)
Lemma empty_payload_keeps_store :
  payload_tokens (str "") = [] /\
  get Bob = Some [(str "clan", str "red"); (str "level", str "5")] /\
  FromNetwork ascii_case_insensitive_map Bob (str "") =
    Some (Bob, [malformed_line Bob (str "")]).
Proof. repeat split. Qed.

Lemma source_user_takes_precedence_witness :
  OnPopulateTags_user ascii_case_insensitive_map example_server example_ctags
    (mk_Message (str "321") [str "Alice"] (Some Bob)) = Some Bob /\
  OnPopulateTags ascii_case_insensitive_map example_server example_ctags
    (mk_Message (str "321") [str "Alice"] (Some Bob)) =
  [mk_AddTag (str "acme/clan") (mk_MessageTagData 1 (str "red"));
   mk_AddTag (str "acme/level") (mk_MessageTagData 1 (str "5"))].
Proof.
  apply (source_user_takes_precedence ascii_case_insensitive_map example_server
           example_ctags (mk_Message (str "321") [str "Alice"] (Some Bob)) Bob);
    reflexivity.
Defined.

Lemma special_message_resolution_witness :
  OnPopulateTags_user ascii_case_insensitive_map example_server example_ctags
    (mk_Message (str "321") [str "Alice"; str "Bob"; str "extra"] None) = Some Bob /\
  UserFromMsg ascii_case_insensitive_map example_server example_ctags
    (mk_Message (str "321") [str "Alice"] None) = None.
Proof.
  destruct (special_message_resolution ascii_case_insensitive_map example_server)
    as [Hbob Hshort].
  split.
  - apply (Hbob example_ctags (str "321") None); [reflexivity|reflexivity|exact I].
  - apply (Hshort example_ctags (mk_Message (str "321") [str "Alice"] None) 1%Z);
      [reflexivity|reflexivity].
Defined.

Lemma whox_field_position_witness :
  UserFromMsg ascii_case_insensitive_map example_server
    (OnWhoLine example_ctags request_with_nick) whox_reply = Some Bob /\
  UserFromMsg ascii_case_insensitive_map example_server example_ctags whox_reply
    = None /\
  UserFromMsg ascii_case_insensitive_map example_server
    (OnWhoLine (OnWhoLine example_ctags request_with_nick) request_without_nick)
    whox_reply = None.
Proof.
  destruct (whox_field_position ascii_case_insensitive_map example_server)
    as (Hpos & Hnew & Hread & Hnone & Hclear).
  split; [|split].
  - apply (Hpos example_ctags request_with_nick 2%Z whox_reply (str "354", 0%Z));
      [reflexivity|lia|reflexivity|reflexivity|reflexivity].
  - apply (Hnone example_ctags whox_reply); [|reflexivity].
    rewrite (Hread (CustomTags_new 1 (Some message_tags_cap)) example_ctags);
      [apply Hnew|reflexivity].
  - apply (Hclear (OnWhoLine example_ctags request_with_nick)
             request_without_nick whox_reply); reflexivity.
Defined.

(** C7, the claim as stated fails: for a local user who has the capability
    [ShouldSendTag] returns true also for a tag whose owner is another
    provider. *)
Lemma ShouldSendTag_ignores_owner :
  Cap_get (ctctagcap example_ctags) Alice = true /\
  tagprov (mk_MessageTagData 2 (str "value")) <> this example_ctags /\
  ShouldSendTag example_ctags Alice (mk_MessageTagData 2 (str "value")) = true.
Proof.
  repeat split. vm_compute. discriminate.
Qed.

(** C8, the claim as stated fails: the calls of [AddTag] for the numeric
    321 about Bob are not acme/level=5 followed by acme/clan=red. *)
Lemma emission_order_is_not_level_first :
  OnPopulateTags ascii_case_insensitive_map example_server example_ctags
    numeric_321 <>
  [mk_AddTag (str "acme/level") (mk_MessageTagData (this example_ctags) (str "5"));
   mk_AddTag (str "acme/clan") (mk_MessageTagData (this example_ctags) (str "red"))].
Proof. vm_compute. discriminate. Qed.

(** C8 (as amended).  End to end, in store order: Bob's store is the one
    decoded from the pairs level=5 and clan=red, the vendor prefix is acme
    and position 1 is configured for 321.  Populating the server-sourced
    321 message with the parameters Alice, Bob attaches exactly the tags
    acme/clan=red and acme/level=5, in the iteration order of the store,
    which is ascending by name: acme/clan first. *)
Theorem end_to_end_tags_in_store_order :
  FromNetwork ascii_case_insensitive_map (unset Bob) (str "level 5 clan red") =
    Some (Bob, []) /\
  vendor example_ctags = str "acme" /\
  flat_find (insensitive_swo ascii_case_insensitive_map) (str "321")
    (specialmsgs example_ctags) = Some (str "321", 1%Z) /\
  OnPopulateTags ascii_case_insensitive_map example_server example_ctags
    numeric_321 =
  [mk_AddTag (str "acme/clan") (mk_MessageTagData (this example_ctags) (str "red"));
   mk_AddTag (str "acme/level") (mk_MessageTagData (this example_ctags) (str "5"))].
Proof. repeat split. Qed.

Lemma reload_rejected_keeps_configuration_witness :
  exists e,
    ReadConfig ascii_case_insensitive_map broken_server example_ctags =
    Thrown e example_ctags.
Proof.
  apply (reload_rejected_keeps_configuration ascii_case_insensitive_map
           broken_server example_ctags).
  exists (config_tag [] [("index"%string, 2%Z)]). split.
  - right. left. reflexivity.
  - left. reflexivity.
Defined.

(** C10, the claim as stated fails: the payload below has four tokens and
    two pairs whose names are equal ignoring case, but it ends with a space
    and [FromNetwork] reports it as malformed instead of installing a
    store. *)
Lemma even_payload_with_trailing_space_is_malformed :
  pairs_of (payload_tokens (str "Foo 1 foo 2 ")) =
    Some [(str "Foo", str "1"); (str "foo", str "2")] /\
  equal_ignoring_case (str "Foo") (str "foo") /\
  FromNetwork ascii_case_insensitive_map Alice (str "Foo 1 foo 2 ") =
    Some (Alice, [malformed_line Alice (str "Foo 1 foo 2 ")]).
Proof. repeat split. Qed.

Lemma duplicate_names_first_wins_witness :
  exists m,
    FromNetwork ascii_case_insensitive_map Alice (str "Foo 1 foo 2") =
      Some (set Alice m, []) /\
    (forall before n1 v1 between n2 v2 after,
        [(str "Foo", str "1"); (str "foo", str "2")] =
          before ++ (n1, v1) :: between ++ (n2, v2) :: after ->
        equal_ignoring_case n1 n2 ->
        (forall p, In p before ->
                   same_name ascii_case_insensitive_map (fst p) n1 = false) ->
        filter (fun e => same_name ascii_case_insensitive_map (fst e) n1) m
          = [(n1, v1)] /\
        filter (fun e => same_name ascii_case_insensitive_map (fst e) n2) m
          = [(n1, v1)]) /\
    (forall i j e1 e2,
        i <> j -> nth_error m i = Some e1 -> nth_error m j = Some e2 ->
        ~ equal_ignoring_case (fst e1) (fst e2)).
Proof.
  apply (duplicate_names_first_wins ascii_case_insensitive_map Alice
           (str "Foo 1 foo 2") [(str "Foo", str "1"); (str "foo", str "2")]).
  - exact ascii_map_folds_case.
  - reflexivity.
  - reflexivity.
Defined.

(** * Further properties of the module *)

(** ** Lookup and assignment in a [flat_map] *)

Section FlatMapLookup.

Variables (K V : Type) (comp : K -> K -> bool).

Hypothesis comp_irrefl : forall a, comp a a = false.
Hypothesis comp_trans :
  forall a b c, comp a b = true -> comp b c = true -> comp a c = true.
Hypothesis comp_cotrans :
  forall a b c, comp a b = true -> comp a c = true \/ comp c b = true.

Lemma comp_asym (a b : K) : comp a b = true -> comp b a = false.
Proof.
  intros Hab. destruct (comp b a) eqn:Hba; [|reflexivity].
  now rewrite <- (comp_irrefl a), (comp_trans a b a Hab Hba).
Qed.

Lemma equiv_equiv_l (a b c : K) :
  equiv comp a b = true -> equiv comp a c = equiv comp b c.
Proof.
  intros H. unfold equiv.
  now rewrite (equiv_comp_l K comp comp_cotrans a b c H),
              (equiv_comp_r K comp comp_cotrans a b c H).
Qed.

Lemma flat_find_cons (k : K) (e : K * V) (t : flat_map K V) :
  flat_find comp k (e :: t) =
  if comp (fst e) k then flat_find comp k t
  else if comp k (fst e) then None else Some e.
Proof.
  unfold flat_find. simpl. destruct (comp (fst e) k); reflexivity.
Qed.

(** On a map, [find] gives the entry whose key is equivalent to [k]. *)
Lemma flat_find_filter (k : K) (m : flat_map K V) :
  flat_map_ok comp m = true ->
  flat_find comp k m = hd_error (filter (fun e => equiv comp (fst e) k) m).
Proof.
  induction m as [|e t IH]; intros Hok; [reflexivity|].
  simpl in Hok. apply andb_prop in Hok as [Hall Ht].
  rewrite flat_find_cons. cbn [filter]. unfold equiv at 1.
  destruct (comp (fst e) k) eqn:Hek; cbn [negb andb].
  - exact (IH Ht).
  - destruct (comp k (fst e)) eqn:Hke; cbn [negb]; [|reflexivity].
    now rewrite (filter_equiv_above K V comp comp_trans comp_cotrans
                   k (fst e) t Hall (or_introl Hke)).
Qed.

Lemma assign_cons (k : K) (v : V) (e : K * V) (t : flat_map K V) :
  assign comp k v (e :: t) =
  if comp (fst e) k then e :: assign comp k v t
  else if comp k (fst e) then (k, v) :: e :: t
  else (fst e, v) :: t.
Proof.
  unfold assign. simpl. destruct (comp (fst e) k); simpl.
  - destruct (nth_error t (lower_bound comp t k)); [|reflexivity].
    destruct (comp k (fst p)); reflexivity.
  - destruct (comp k (fst e)); reflexivity.
Qed.

Lemma assign_keys (f : K -> bool) (k : K) (v : V) (m : flat_map K V) :
  forallb (fun y => f (fst y)) m = true -> f k = true ->
  forallb (fun y => f (fst y)) (assign comp k v m) = true.
Proof.
  intros Hm Hk. induction m as [|e t IH]; [simpl; now rewrite Hk|].
  simpl in Hm. apply andb_prop in Hm as [He Ht]. rewrite assign_cons.
  destruct (comp (fst e) k); [|destruct (comp k (fst e))]; simpl.
  - now rewrite He, (IH Ht).
  - now rewrite Hk, He, Ht.
  - now rewrite He, Ht.
Qed.

Lemma assign_values (g : V -> bool) (k : K) (v : V) (m : flat_map K V) :
  forallb (fun y => g (snd y)) m = true -> g v = true ->
  forallb (fun y => g (snd y)) (assign comp k v m) = true.
Proof.
  intros Hm Hv. induction m as [|e t IH]; [simpl; now rewrite Hv|].
  simpl in Hm. apply andb_prop in Hm as [He Ht]. rewrite assign_cons.
  destruct (comp (fst e) k); [|destruct (comp k (fst e))]; simpl.
  - now rewrite He, (IH Ht).
  - now rewrite Hv, He, Ht.
  - now rewrite Hv, Ht.
Qed.

(** [m[k] = v] keeps the keys strictly ascending. *)
Lemma assign_ok (k : K) (v : V) (m : flat_map K V) :
  flat_map_ok comp m = true -> flat_map_ok comp (assign comp k v m) = true.
Proof.
  induction m as [|e t IH]; intros Hok; [reflexivity|].
  simpl in Hok. apply andb_prop in Hok as [Hall Ht]. rewrite assign_cons.
  destruct (comp (fst e) k) eqn:Hek; [|destruct (comp k (fst e)) eqn:Hke].
  - simpl. rewrite (IH Ht), andb_true_r.
    exact (assign_keys (comp (fst e)) k v t Hall Hek).
  - simpl. rewrite Hke, Hall, Ht. simpl. rewrite andb_true_r.
    apply forallb_forall. intros y Hy. rewrite forallb_forall in Hall.
    eapply comp_trans; eauto.
  - simpl. now rewrite Hall, Ht.
Qed.

(** [find] after [m[k] = v]: the new value for the keys equivalent to [k],
    the old lookup for the others. *)
Lemma flat_find_assign (n k : K) (v : V) (m : flat_map K V) :
  flat_map_ok comp m = true ->
  option_map snd (flat_find comp n (assign comp k v m)) =
  if equiv comp k n then Some v else option_map snd (flat_find comp n m).
Proof.
  induction m as [|e t IH]; intros Hok.
  - unfold assign, flat_find, equiv. simpl.
    destruct (comp k n) eqn:Hkn; simpl; [reflexivity|].
    destruct (comp n k); reflexivity.
  - simpl in Hok. apply andb_prop in Hok as [Hall Ht]. specialize (IH Ht).
    rewrite assign_cons.
    destruct (comp (fst e) k) eqn:Hek; [|destruct (comp k (fst e)) eqn:Hke].
    + rewrite !flat_find_cons. cbn [fst].
      destruct (comp (fst e) n) eqn:Hen; [exact IH|].
      assert (Hnk : comp n k = true).
      { destruct (comp_cotrans _ _ n Hek) as [H|H]; congruence. }
      unfold equiv. rewrite Hnk, andb_false_r. reflexivity.
    + rewrite !flat_find_cons. cbn [fst].
      destruct (comp k n) eqn:Hkn.
      * unfold equiv. rewrite Hkn. reflexivity.
      * unfold equiv. rewrite Hkn. cbn [negb andb].
        destruct (comp n k) eqn:Hnk; cbn [negb]; [|reflexivity].
        rewrite (comp_asym _ _ (comp_trans _ _ _ Hnk Hke)).
        now rewrite (comp_trans _ _ _ Hnk Hke).
    + assert (Hke' : equiv comp k (fst e) = true)
        by (unfold equiv; now rewrite Hek, Hke).
      rewrite (equiv_equiv_l _ _ n Hke'). rewrite !flat_find_cons. cbn [fst].
      unfold equiv.
      destruct (comp (fst e) n) eqn:Hen; [reflexivity|].
      destruct (comp n (fst e)); reflexivity.
Qed.

(** Two maps with the same entries are the same vector. *)
Lemma ok_same_entries (m1 m2 : flat_map K V) :
  flat_map_ok comp m1 = true -> flat_map_ok comp m2 = true ->
  (forall e, In e m1 <-> In e m2) -> m1 = m2.
Proof.
  revert m2. induction m1 as [|e1 t1 IH]; intros [|e2 t2] H1 H2 Hin.
  - reflexivity.
  - destruct (proj2 (Hin e2) (or_introl eq_refl)).
  - destruct (proj1 (Hin e1) (or_introl eq_refl)).
  - simpl in H1, H2. apply andb_prop in H1 as [Ha1 Ht1].
    apply andb_prop in H2 as [Ha2 Ht2].
    rewrite forallb_forall in Ha1, Ha2.
    assert (He : e1 = e2).
    { destruct (proj1 (Hin e1) (or_introl eq_refl)) as [H|H]; [now symmetry|].
      destruct (proj2 (Hin e2) (or_introl eq_refl)) as [H'|H']; [exact H'|].
      pose proof (Ha2 _ H) as Hlt. pose proof (Ha1 _ H') as Hgt.
      now rewrite (comp_asym _ _ Hlt) in Hgt. }
    subst e2. f_equal. apply IH; auto. intros e. split; intros He.
    + destruct (proj1 (Hin e) (or_intror He)) as [<-|H]; [|exact H].
      pose proof (Ha1 _ He) as Hlt. now rewrite comp_irrefl in Hlt.
    + destruct (proj2 (Hin e) (or_intror He)) as [<-|H]; [|exact H].
      pose proof (Ha2 _ He) as Hlt. now rewrite comp_irrefl in Hlt.
Qed.

(** The entries of a map built by insertions: the first pair of each
    key. *)
Lemma In_fold_insert (e : K * V) (ps : flat_map K V) :
  In e (fold_left (fun m p => insert comp p m) ps []) <->
  List.find (fun p => equiv comp (fst p) (fst e)) ps = Some e.
Proof.
  pose proof (filter_fold_insert K V comp comp_trans comp_cotrans
                (fst e) ps [] eq_refl) as Hf.
  cbn [filter] in Hf. split.
  - intros Hin.
    assert (Hin' : In e (filter (fun x => equiv comp (fst x) (fst e))
                     (fold_left (fun m p => insert comp p m) ps [])))
      by (apply filter_In; split; [exact Hin|apply equiv_refl, comp_irrefl]).
    rewrite Hf in Hin'.
    destruct (List.find (fun p => equiv comp (fst p) (fst e)) ps);
      [|destruct Hin'].
    destruct Hin' as [->|[]]. reflexivity.
  - intros Hfind. rewrite Hfind in Hf.
    assert (Hin : In e (filter (fun x => equiv comp (fst x) (fst e))
                    (fold_left (fun m p => insert comp p m) ps [])))
      by (rewrite Hf; now left).
    now apply filter_In in Hin.
Qed.

End FlatMapLookup.

(** ** More on the codec *)

Section CodecMore.

Variable cm : ascii -> ascii.

Lemma pairs_of_even (ws : list std_string) :
  Nat.even (length ws) = true -> exists ps, pairs_of ws = Some ps.
Proof.
  induction ws as [| x | n v ws IH] using pairs_ind; intros H.
  - now exists [].
  - discriminate.
  - cbn [length] in H. rewrite Nat.even_succ_succ in H.
    destruct (IH H) as (ps & Hps). exists ((n, v) :: ps).
    cbn [pairs_of]. now rewrite Hps.
Qed.

Lemma pairs_list_In (ws : list std_string) (p : std_string * std_string) :
  In p (pairs_list ws) -> In (fst p) ws /\ In (snd p) ws.
Proof.
  unfold pairs_list. revert p.
  induction ws as [| x | n v ws IH] using pairs_ind; intros p; cbn [pairs_of].
  - intros [].
  - intros [].
  - destruct (pairs_of ws) as [ps|]; cbn [option_map]; [|intros []].
    intros [<-|Hin]; simpl; [auto|]. destruct (IH p Hin). auto.
Qed.

Lemma split_on_no_sep (c : ascii) (s f : std_string) :
  In f (split_on c s) -> forallb (fun x => negb (Ascii.eqb x c)) f = true.
Proof.
  revert f. induction s as [|x t IH]; intros f; simpl.
  - intros [<-|[]]. reflexivity.
  - destruct (Ascii.eqb x c) eqn:Hx.
    + intros [<-|Hin]; [reflexivity|now apply IH].
    + destruct (split_on c t) as [|g fs].
      * intros [<-|[]]. simpl. now rewrite Hx.
      * intros [<-|Hin].
        -- simpl. rewrite Hx. apply IH. now left.
        -- apply IH. now right.
Qed.

Lemma payload_tokens_ok (value w : std_string) :
  In w (payload_tokens value) -> token_ok w = true.
Proof.
  unfold payload_tokens. intros H. apply filter_In in H as [Hin Hne].
  unfold token_ok, no_space. now rewrite Hne, (split_on_no_sep _ _ _ Hin).
Qed.

Lemma fold_insert_In (ps acc : CustomTagMap) (e : std_string * std_string) :
  In e (fold_left (fun m p => insert (insensitive_swo cm) p m) ps acc) ->
  In e ps \/ In e acc.
Proof.
  revert acc. induction ps as [|p ps IH]; intros acc H; simpl in *; [auto|].
  destruct (IH _ H) as [H'|H']; [auto|].
  destruct (insert_In _ _ _ _ _ _ H'); auto.
Qed.

Lemma decoded_store_ok (value : std_string) :
  flat_map_ok (insensitive_swo cm) (decoded_store cm value) = true /\
  tokens_ok (decoded_store cm value) = true.
Proof.
  split.
  - apply fold_insert_ok; [apply swo_trans|reflexivity].
  - apply forallb_forall. intros e He.
    destruct (fold_insert_In _ _ _ He) as [Hin|[]].
    destruct (pairs_list_In _ _ Hin) as [Hk Hv].
    now rewrite (payload_tokens_ok value _ Hk), (payload_tokens_ok value _ Hv).
Qed.

Lemma decoded_store_not_nil (value : std_string) :
  well_formed value = true -> decoded_store cm value <> [].
Proof.
  unfold well_formed. intros Hwf. apply andb_prop in Hwf as [Htr Hev].
  apply negb_true_iff in Htr. destruct (pairs_of_even _ Hev) as (ps & Hps).
  pose proof (decode_tokens_not_empty cm value) as Hne.
  rewrite decode_tokens_pairs, Hps, Htr in Hne.
  unfold decoded_store, pairs_list. rewrite Hps. congruence.
Qed.

(** X1.  [FromNetwork] accepts exactly the well-formed payloads: when the
    payload has an even number of tokens and does not end with a separator
    (nor is empty), the store built from its pairs is installed and nothing
    is logged; every other payload is logged as malformed and leaves the
    user as it is. *)
Theorem FromNetwork_accepts_well_formed (user : User) (value : std_string) :
  FromNetwork cm user value =
  Some (if well_formed value
        then (set user (decoded_store cm value), [])
        else (user, [malformed_line user value])).
Proof.
  rewrite FromNetwork_spec, decode_tokens_pairs.
  pose proof (decoded_store_not_nil value) as Hne.
  unfold well_formed, decoded_store, pairs_list in *.
  destruct (Nat.even (length (payload_tokens value))) eqn:Hev.
  - destruct (pairs_of_even _ Hev) as (ps & Hps). rewrite Hps in *.
    destruct (trailing_separator value); [reflexivity|]. cbn [negb andb] in *.
    destruct (fold_left (fun m p => insert (insensitive_swo cm) p m) ps []);
      [now destruct Hne|reflexivity].
  - rewrite andb_false_r.
    rewrite (pairs_of_odd (payload_tokens value)); [reflexivity|].
    now rewrite <- Nat.negb_even, Hev.
Qed.

(** X2.  [FromNetwork] never removes a tag store and never installs an
    empty one: a user who has a store has one afterwards, and a user whose
    store is not empty does not get an empty one. *)
Theorem FromNetwork_keeps_a_store (user u : User) (value : std_string)
  (logs : list LogLine) :
  FromNetwork cm user value = Some (u, logs) ->
  (get u = None -> get user = None /\ u = user) /\
  (get user <> Some [] -> get u <> Some []).
Proof.
  rewrite FromNetwork_accepts_well_formed.
  pose proof (decoded_store_not_nil value) as Hne.
  destruct (well_formed value); intros H; injection H as <- <-.
  - split; [discriminate|]. intros _ H. injection H as H. now apply Hne.
  - auto.
Qed.

(** X3.  Every store [FromNetwork] installs is a well-kept map that the
    codec can carry: it is not empty, its names are strictly ascending in
    the case-insensitive order, and its names and values are non-empty and
    without a space. *)
Theorem FromNetwork_installs_canonical_store (user u : User) (value : std_string) :
  FromNetwork cm user value = Some (u, []) ->
  exists m, get u = Some m /\ m <> [] /\
            flat_map_ok (insensitive_swo cm) m = true /\ tokens_ok m = true.
Proof.
  rewrite FromNetwork_accepts_well_formed.
  pose proof (decoded_store_not_nil value) as Hne.
  destruct (well_formed value); [|discriminate].
  intros H. injection H as <-. exists (decoded_store cm value).
  destruct (decoded_store_ok value) as [Hok Htok]. repeat split; auto.
Qed.

(** X4.  What [FromNetwork] installs survives the wire: [ToNetwork] of an
    installed store is a payload from which [FromNetwork] installs the same
    store, for any user. *)
Theorem installed_store_round_trips (user u user' : User) (value : std_string)
  (m : CustomTagMap) :
  FromNetwork cm user value = Some (u, []) ->
  get u = Some m ->
  FromNetwork cm user' (ToNetwork m) = Some (set user' m, []).
Proof.
  intros H Hm.
  destruct (FromNetwork_installs_canonical_store _ _ _ H)
    as (m' & Hm' & Hne & Hok & Htok).
  rewrite Hm in Hm'. injection Hm' as <-.
  rewrite FromNetwork_spec. unfold payload_tokens, trailing_separator.
  rewrite (split_on_ToNetwork m Hne Htok).
  destruct (flatten_tokens m Htok) as [-> ->].
  rewrite decode_tokens_pairs, pairs_of_flatten.
  rewrite (fold_insert_sorted _ _ (insensitive_swo cm) m [] Hok).
  destruct m; [congruence|reflexivity].
Qed.

Lemma find_hd_filter (A : Type) (f : A -> bool) (l : list A) :
  List.find f l = hd_error (filter f l).
Proof.
  induction l as [|x l IH]; simpl; [reflexivity|]. now destruct (f x).
Qed.

(** X5.  Lookup after decode: in the store [FromNetwork] installs,
    [find] of a name gives the first pair of the payload whose name is the
    same under the case mapping, and [end()] when the payload has no pair
    of that name. *)
Theorem lookup_after_decode (user u : User) (value n : std_string) :
  FromNetwork cm user value = Some (u, []) ->
  exists m, get u = Some m /\
    flat_find (insensitive_swo cm) n m =
    List.find (fun p => same_name cm (fst p) n) (pairs_list (payload_tokens value)).
Proof.
  rewrite FromNetwork_accepts_well_formed.
  destruct (well_formed value); [|discriminate].
  intros H. injection H as <-. exists (decoded_store cm value).
  split; [reflexivity|].
  destruct (decoded_store_ok value) as [Hok _].
  rewrite (flat_find_filter _ _ _ (swo_trans cm) (swo_cotrans cm) n _ Hok).
  unfold decoded_store.
  rewrite (filter_fold_insert _ _ _ (swo_trans cm) (swo_cotrans cm) n _ [] eq_refl).
  cbn [filter]. unfold same_name.
  now destruct (List.find (fun p => equiv (insensitive_swo cm) (fst p) n)
                  (pairs_list (payload_tokens value))).
Qed.

Lemma filter_Permutation (A : Type) (f : A -> bool) (l l' : list A) :
  Permutation l l' -> Permutation (filter f l) (filter f l').
Proof.
  induction 1 as [|x l l' _ IH|x y l|l l' l'' _ IH1 _ IH2]; simpl.
  - constructor.
  - destruct (f x); [now constructor|exact IH].
  - destruct (f x), (f y); try reflexivity. constructor.
  - now transitivity (filter f l').
Qed.

Lemma distinct_names_filter (ps : list (std_string * std_string)) (n : std_string) :
  distinct_names cm ps = true ->
  length (filter (fun p => same_name cm (fst p) n) ps) <= 1.
Proof.
  induction ps as [|p t IH]; intros Hd; simpl; [lia|].
  simpl in Hd. apply andb_prop in Hd as [Hp Ht]. specialize (IH Ht).
  destruct (same_name cm (fst p) n) eqn:Hpn; [|exact IH].
  destruct (filter (fun q => same_name cm (fst q) n) t) as [|q l] eqn:Hf;
    [simpl; lia|].
  assert (Hq : In q (filter (fun q => same_name cm (fst q) n) t))
    by (rewrite Hf; now left).
  apply filter_In in Hq as [Hin Hqn].
  rewrite forallb_forall in Hp. specialize (Hp q Hin).
  apply negb_true_iff in Hp. unfold same_name in *.
  rewrite (equiv_sym _ (insensitive_swo cm) (fst q) n) in Hqn.
  now rewrite (equiv_trans _ _ (swo_cotrans cm) _ _ _ Hpn Hqn) in Hp.
Qed.

(** X6.  The order of the pairs does not matter: two well-formed payloads
    whose pairs are the same up to their order, and have different names,
    make [FromNetwork] install the same store. *)
Theorem pair_order_is_irrelevant (user : User) (value1 value2 : std_string) :
  well_formed value1 = true ->
  well_formed value2 = true ->
  Permutation (pairs_list (payload_tokens value1))
              (pairs_list (payload_tokens value2)) ->
  distinct_names cm (pairs_list (payload_tokens value1)) = true ->
  FromNetwork cm user value1 = FromNetwork cm user value2.
Proof.
  intros Hw1 Hw2 Hperm Hd.
  rewrite !FromNetwork_accepts_well_formed, Hw1, Hw2.
  do 3 f_equal.
  destruct (decoded_store_ok value1) as [Hok1 _].
  destruct (decoded_store_ok value2) as [Hok2 _].
  apply (ok_same_entries _ _ _ (swo_irrefl cm) (swo_trans cm) _ _ Hok1 Hok2).
  assert (Hfind : forall n,
            List.find (fun p => same_name cm (fst p) n)
              (pairs_list (payload_tokens value1)) =
            List.find (fun p => same_name cm (fst p) n)
              (pairs_list (payload_tokens value2))).
  { intros n. rewrite !find_hd_filter.
    pose proof (filter_Permutation _ (fun p => same_name cm (fst p) n) _ _ Hperm) as Hp.
    pose proof (distinct_names_filter _ n Hd) as Hlen.
    pose proof (Permutation_length Hp) as Hl.
    destruct (filter (fun p => same_name cm (fst p) n)
                (pairs_list (payload_tokens value1))) as [|a [|b l]].
    - now rewrite (Permutation_nil Hp).
    - now rewrite (Permutation_length_1_inv Hp).
    - simpl in Hlen. lia. }
  intros e. unfold decoded_store.
  rewrite !(In_fold_insert _ _ _ (swo_irrefl cm) (swo_trans cm) (swo_cotrans cm)).
  unfold same_name in Hfind. now rewrite Hfind.
Qed.

End CodecMore.

(** ** The wire format of [ToNetwork] *)

Lemma join_cons (c : ascii) (w w' : std_string) (rest : list std_string) :
  join c (w :: w' :: rest) = w ++ c :: join c (w' :: rest).
Proof. reflexivity. Qed.

Lemma join_more_pairs (s : CustomTagMap) (v : std_string) :
  join " "%char (v :: flatten s) = v ++ more_pairs s.
Proof.
  revert v. induction s as [|e s IH]; intros v.
  - unfold more_pairs. simpl. now rewrite app_nil_r.
  - change (flatten (e :: s)) with (fst e :: snd e :: flatten s).
    change (more_pairs (e :: s))
      with ((" "%char :: fst e ++ " "%char :: snd e) ++ more_pairs s).
    rewrite !join_cons, IH. cbn [app]. now rewrite <- app_assoc.
Qed.

(** X7.  The wire format: [ToNetwork] writes the names and values of the
    store in its order, joined by single spaces, with no space before the
    first name or after the last value; the empty store gives the empty
    string. *)
Theorem ToNetwork_joins_with_spaces (s : CustomTagMap) :
  ToNetwork s = join " "%char (flatten s).
Proof.
  destruct s as [|e s]; [reflexivity|].
  rewrite ToNetwork_cons.
  change (flatten (e :: s)) with (fst e :: snd e :: flatten s).
  now rewrite join_cons, join_more_pairs.
Qed.

(** ** More on the engine and its configuration *)

Section EngineMore.

Variable cm : ascii -> ascii.
Variable ServerInstance : InspIRCd.

Lemma getUInt_range (tag : ConfigTag) (key : std_string) (def min max : Z) :
  (min <= def <= max)%Z -> (min <= getUInt tag key def min max <= max)%Z.
Proof.
  intros Hd. unfold getUInt. destruct (readUInt tag key) as [res|]; [|exact Hd].
  destruct (Z.ltb_spec res min); [exact Hd|].
  destruct (Z.ltb_spec max res); [exact Hd|]. simpl. lia.
Qed.

(** The loop of [ReadConfig], when it finishes: every tag had a command,
    the table is a map with values from 0 to 20, and a lookup finds the
    index of the last tag of that command. *)
Lemma ReadConfig_loop_returns (tags : list ConfigTag) :
  forall table table' : SpecialMessageMap,
    ReadConfig_loop cm tags table = inr table' ->
    flat_map_ok (insensitive_swo cm) table = true ->
    forallb (fun e => (0 <=? snd e)%Z && (snd e <=? 20)%Z) table = true ->
    commands_ok tags = true /\
    flat_map_ok (insensitive_swo cm) table' = true /\
    forallb (fun e => (0 <=? snd e)%Z && (snd e <=? 20)%Z) table' = true /\
    forall n,
      option_map snd (flat_find (insensitive_swo cm) n table') =
      match last_index cm tags n with
      | Some v => Some v
      | None => option_map snd (flat_find (insensitive_swo cm) n table)
      end.
Proof.
  induction tags as [|tag rest IH]; intros table table' Hrun Hok Hb.
  - injection Hrun as <-. auto.
  - cbn [ReadConfig_loop] in Hrun.
    destruct (empty (getString tag (str "command") [] 0)) eqn:Hcmd;
      [discriminate|].
    pose proof (getUInt_range tag (str "index") 0 0 20 ltac:(lia)) as Hr.
    assert (Hok1 : flat_map_ok (insensitive_swo cm)
                     (assign (insensitive_swo cm)
                        (getString tag (str "command") [] 0)
                        (getUInt tag (str "index") 0 0 20) table) = true)
      by (apply assign_ok; [apply swo_trans|exact Hok]).
    assert (Hb1 : forallb (fun e => (0 <=? snd e)%Z && (snd e <=? 20)%Z)
                    (assign (insensitive_swo cm)
                       (getString tag (str "command") [] 0)
                       (getUInt tag (str "index") 0 0 20) table) = true).
    { apply (assign_values _ _ (insensitive_swo cm)
               (fun v => (0 <=? v)%Z && (v <=? 20)%Z)); [exact Hb|].
      apply andb_true_intro. split; apply Z.leb_le; lia. }
    destruct (IH _ _ Hrun Hok1 Hb1) as (Hc & Hok' & Hb' & Hfind).
    repeat split; auto.
    + unfold commands_ok. cbn [forallb]. rewrite Hcmd. exact Hc.
    + intros n. rewrite Hfind. cbn [last_index].
      destruct (last_index cm rest n); [reflexivity|].
      rewrite (flat_find_assign _ _ _ (swo_irrefl cm) (swo_trans cm)
                 (swo_cotrans cm) n _ _ table Hok).
      unfold same_name.
      now destruct (equiv (insensitive_swo cm)
                      (getString tag (str "command") [] 0) n).
Qed.


Lemma ReadConfig_loop_commands_ok (tags : list ConfigTag) :
  forall table : SpecialMessageMap,
    commands_ok tags = true ->
    exists table', ReadConfig_loop cm tags table = inr table'.
Proof.
  induction tags as [|tag rest IH]; intros table Hc; [now exists table|].
  unfold commands_ok in Hc. cbn [forallb] in Hc.
  apply andb_prop in Hc as [Hcmd Hrest]. apply negb_true_iff in Hcmd.
  cbn [ReadConfig_loop]. rewrite Hcmd. now apply IH.
Qed.

(** X9.  When every [<specialmsg>] tag has a command the reload succeeds,
    and of several tags for one command (the same up to the case mapping)
    the last one wins: a lookup in the new table gives the position of
    the last tag of the command, and nothing for a command without a tag,
    whatever the table held before. *)
Theorem reload_last_tag_wins (ctags : CustomTags) :
  commands_ok (ConfTags ServerInstance (str "specialmsg")) = true ->
  exists ct',
    ReadConfig cm ServerInstance ctags = Returned ct' /\
    forall n,
      option_map snd (flat_find (insensitive_swo cm) n (specialmsgs ct')) =
      last_index cm (ConfTags ServerInstance (str "specialmsg")) n.
Proof.
  intros Hc. unfold ReadConfig.
  destruct (ReadConfig_loop_commands_ok _ [] Hc) as (table & Hrun).
  rewrite Hrun. eexists. split; [reflexivity|].
  intros n. cbn [specialmsgs].
  destruct (ReadConfig_loop_returns _ _ _ Hrun eq_refl eq_refl)
    as (_ & _ & _ & Hfind).
  rewrite Hfind.
  now destruct (last_index cm (ConfTags ServerInstance (str "specialmsg")) n).
Qed.

Lemma ok_NoDup_keys (m : CustomTagMap) :
  flat_map_ok (insensitive_swo cm) m = true -> NoDup (map fst m).
Proof.
  induction m as [|e t IH]; intros Hok; [constructor|].
  simpl in Hok. apply andb_prop in Hok as [Hall Ht].
  simpl. constructor; [|exact (IH Ht)].
  intros Hin. apply in_map_iff in Hin as (e' & Hk & Hin).
  rewrite forallb_forall in Hall. specialize (Hall e' Hin).
  now rewrite Hk, swo_irrefl in Hall.
Qed.

Lemma NoDup_map_prefix (pre : std_string) (l : list std_string) :
  NoDup l -> NoDup (map (fun k => pre ++ k) l).
Proof.
  induction 1 as [|k l Hk _ IH]; simpl; constructor; [|exact IH].
  intros Hin. apply in_map_iff in Hin as (k' & Heq & Hin).
  apply app_inv_head in Heq. now subst k'.
Qed.

(** X10.  The tags attached to a message: when the user the message is
    about has a store that is a well-kept map, [OnPopulateTags] attaches
    one tag per entry of the store, no two of them under the same name,
    each named by the vendor prefix, a slash and the name of its entry,
    carrying the value of the entry and owned by this provider. *)
Theorem OnPopulateTags_one_tag_per_entry (ct : CustomTags) (msg : Message)
  (user : User) (tags : CustomTagMap) :
  OnPopulateTags_user cm ServerInstance ct msg = Some user ->
  get user = Some tags ->
  flat_map_ok (insensitive_swo cm) tags = true ->
  length (OnPopulateTags cm ServerInstance ct msg) = length tags /\
  NoDup (map tagname (OnPopulateTags cm ServerInstance ct msg)) /\
  forall i e,
    nth_error tags i = Some e ->
    nth_error (OnPopulateTags cm ServerInstance ct msg) i =
    Some (mk_AddTag (vendor ct ++ str "/" ++ fst e)
                    (mk_MessageTagData (this ct) (snd e))).
Proof.
  intros Huser Hget Hok. unfold OnPopulateTags. rewrite Huser, Hget.
  split; [apply length_map|]. split.
  - rewrite map_map. cbn [tagname].
    rewrite <- (map_map fst (fun k => vendor ct ++ str "/" ++ k)).
    rewrite <- (map_map (fun k => str "/" ++ k) (fun k => vendor ct ++ k)).
    apply NoDup_map_prefix, NoDup_map_prefix, ok_NoDup_keys, Hok.
  - intros i e Hi.
    exact (map_nth_error
             (fun iter => mk_AddTag (vendor ct ++ str "/" ++ fst iter)
                            (mk_MessageTagData (this ct) (snd iter)))
             i tags Hi).
Qed.

Lemma flat_find_In (n : std_string) (table : SpecialMessageMap)
  (e : std_string * Z) :
  flat_find (insensitive_swo cm) n table = Some e -> In e table.
Proof.
  unfold flat_find. intros H.
  destruct (nth_error table (lower_bound (insensitive_swo cm) table n))
    as [e'|] eqn:Hnth; [|discriminate].
  destruct (insensitive_swo cm n (fst e')); [discriminate|].
  injection H as <-. eapply nth_error_In; eauto.
Qed.

(** X11.  [UserFromMsg] never looks past the parameters: when it returns
    a user, the command is in the table and the user is the one the
    directory has for the nick found at a position inside the parameter
    list.  The positions of the table are [size_t] values, so not
    negative. *)
Theorem UserFromMsg_reads_a_parameter (ct : CustomTags) (msg : Message)
  (u : User) :
  forallb (fun e => (0 <=? snd e)%Z) (specialmsgs ct) = true ->
  UserFromMsg cm ServerInstance ct msg = Some u ->
  exists e i nickname,
    flat_find (insensitive_swo cm) (GetCommand msg) (specialmsgs ct) = Some e /\
    nth_error (GetParams msg) i = Some nickname /\
    FindNickOnly ServerInstance nickname = Some u.
Proof.
  intros Hpos H. unfold UserFromMsg in H.
  destruct (flat_find (insensitive_swo cm) (GetCommand msg) (specialmsgs ct))
    as [e|] eqn:Hfind; [|discriminate].
  assert (He : (0 <= snd e)%Z).
  { rewrite forallb_forall in Hpos. apply Z.leb_le, Hpos.
    eapply flat_find_In; eauto. }
  assert (Hgo : forall p, (0 <= p)%Z ->
            (if (Z.of_nat (length (GetParams msg)) <=? p)%Z then None
             else FindNickOnly ServerInstance
                    (nth (Z.to_nat p) (GetParams msg) [])) = Some u ->
            exists i nickname,
              nth_error (GetParams msg) i = Some nickname /\
              FindNickOnly ServerInstance nickname = Some u).
  { intros p Hp Hres.
    destruct (Z.leb_spec (Z.of_nat (length (GetParams msg))) p); [discriminate|].
    exists (Z.to_nat p), (nth (Z.to_nat p) (GetParams msg) []).
    split; [|exact Hres]. apply nth_error_nth'. lia. }
  exists e.
  destruct (equals cm (GetCommand msg) (str "354")).
  - destruct (whox_index ct =? -1)%Z; [discriminate|].
    destruct (Hgo _ (proj1 (Z.mod_pos_bound (whox_index ct + 1) (2 ^ 64) eq_refl)) H)
      as (i & nickname & H1 & H2).
    exists i, nickname. auto.
  - destruct (Hgo _ He H) as (i & nickname & H1 & H2).
    exists i, nickname. auto.
Qed.

(** X12.  Tracking the WHOX field does not disturb other commands: for a
    message whose command is not 354, the user resolved and the tags
    attached are the same before and after [OnWhoLine]. *)
Theorem OnWhoLine_leaves_other_commands (ct : CustomTags) (request : Who_Request)
  (msg : Message) :
  equals cm (GetCommand msg) (str "354") = false ->
  UserFromMsg cm ServerInstance (OnWhoLine ct request) msg =
    UserFromMsg cm ServerInstance ct msg /\
  OnPopulateTags cm ServerInstance (OnWhoLine ct request) msg =
    OnPopulateTags cm ServerInstance ct msg.
Proof.
  intros H.
  assert (Hu : UserFromMsg cm ServerInstance (OnWhoLine ct request) msg =
               UserFromMsg cm ServerInstance ct msg)
    by (unfold UserFromMsg, OnWhoLine; cbn [specialmsgs whox_index];
        now rewrite H).
  split; [exact Hu|].
  unfold OnPopulateTags, OnPopulateTags_user. now rewrite Hu.
Qed.

(** X13.  From the wire to the message: once [FromNetwork] has installed
    a store for a user who is not a server, a message sent by that user
    gets exactly one tag for each name of the payload, carrying the value of
    the first pair of that name: the tag vendor/n with value v is attached
    if and only if (n, v) is the first pair of the payload whose name is
    n under the case mapping. *)
Theorem decoded_tags_are_attached (ct : CustomTags) (user u : User)
  (value : std_string) (msg : Message) (n v : std_string) :
  IS_SERVER user = false ->
  FromNetwork cm user value = Some (u, []) ->
  GetSourceUser msg = Some u ->
  (In (mk_AddTag (vendor ct ++ str "/" ++ n) (mk_MessageTagData (this ct) v))
      (OnPopulateTags cm ServerInstance ct msg) <->
   List.find (fun p => same_name cm (fst p) n) (pairs_list (payload_tokens value))
   = Some (n, v)).
Proof.
  intros Hserver Hdec Hsrc.
  rewrite FromNetwork_accepts_well_formed in Hdec.
  destruct (well_formed value); [|discriminate]. injection Hdec as <-.
  assert (Hs : IS_SERVER (set user (decoded_store cm value)) = false)
    by exact Hserver.
  unfold OnPopulateTags, OnPopulateTags_user. rewrite Hsrc, Hs.
  change (get (set user (decoded_store cm value)))
    with (Some (decoded_store cm value)).
  pose proof (In_fold_insert _ _ (insensitive_swo cm) (swo_irrefl cm)
                (swo_trans cm) (swo_cotrans cm) (n, v)
                (pairs_list (payload_tokens value))) as Hin.
  cbn [fst] in Hin. fold (decoded_store cm value) in Hin.
  unfold same_name. rewrite <- Hin, in_map_iff. split.
  - intros ([k w] & Heq & He). cbn [fst snd] in Heq.
    injection Heq as Hname ->. apply app_inv_head in Hname.
    cbn in Hname. injection Hname as ->. exact He.
  - intros He. exists (n, v). auto.
Qed.

End EngineMore.

(** ** The further properties at concrete inputs *)

Lemma FromNetwork_keeps_a_store_witness :
  (get (set Bob [(str "a", str "1")]) = None ->
   get Bob = None /\ set Bob [(str "a", str "1")] = Bob) /\
  (get Bob <> Some [] -> get (set Bob [(str "a", str "1")]) <> Some []).
Proof.
  apply (FromNetwork_keeps_a_store ascii_case_insensitive_map Bob
           (set Bob [(str "a", str "1")]) (str "a 1") []).
  reflexivity.
Defined.

Lemma FromNetwork_installs_canonical_store_witness :
  exists m, get (set Alice bob_tags) = Some m /\ m <> [] /\
            flat_map_ok (insensitive_swo ascii_case_insensitive_map) m = true /\
            tokens_ok m = true.
Proof.
  apply (FromNetwork_installs_canonical_store ascii_case_insensitive_map Alice
           (set Alice bob_tags) (str "level 5 clan red")).
  reflexivity.
Defined.

Lemma installed_store_round_trips_witness :
  FromNetwork ascii_case_insensitive_map Bob (ToNetwork bob_tags) =
  Some (set Bob bob_tags, []).
Proof.
  apply (installed_store_round_trips ascii_case_insensitive_map Alice
           (set Alice bob_tags) Bob (str "level 5 clan red") bob_tags);
    reflexivity.
Defined.

Lemma lookup_after_decode_witness :
  exists m, get (set Alice [(str "Foo", str "1")]) = Some m /\
    flat_find (insensitive_swo ascii_case_insensitive_map) (str "FOO") m =
    List.find (fun p => same_name ascii_case_insensitive_map (fst p) (str "FOO"))
      (pairs_list (payload_tokens (str "Foo 1 foo 2"))).
Proof.
  apply (lookup_after_decode ascii_case_insensitive_map Alice
           (set Alice [(str "Foo", str "1")]) (str "Foo 1 foo 2") (str "FOO")).
  reflexivity.
Defined.

Lemma pair_order_is_irrelevant_witness :
  FromNetwork ascii_case_insensitive_map Alice (str "level 5 clan red") =
  FromNetwork ascii_case_insensitive_map Alice (str "clan red level 5").
Proof.
  apply (pair_order_is_irrelevant ascii_case_insensitive_map Alice
           (str "level 5 clan red") (str "clan red level 5")).
  - reflexivity.
  - reflexivity.
  - vm_compute. apply perm_swap.
  - reflexivity.
Defined.


Lemma reload_last_tag_wins_witness :
  exists ct',
    ReadConfig ascii_case_insensitive_map duplicate_server example_ctags
      = Returned ct' /\
    forall n,
      option_map snd
        (flat_find (insensitive_swo ascii_case_insensitive_map) n (specialmsgs ct')) =
      last_index ascii_case_insensitive_map
        (ConfTags duplicate_server (str "specialmsg")) n.
Proof.
  apply (reload_last_tag_wins ascii_case_insensitive_map duplicate_server
           example_ctags).
  reflexivity.
Defined.

Lemma OnPopulateTags_one_tag_per_entry_witness :
  length (OnPopulateTags ascii_case_insensitive_map example_server example_ctags
            numeric_321) = length bob_tags /\
  NoDup (map tagname
           (OnPopulateTags ascii_case_insensitive_map example_server
              example_ctags numeric_321)) /\
  forall i e,
    nth_error bob_tags i = Some e ->
    nth_error (OnPopulateTags ascii_case_insensitive_map example_server
                 example_ctags numeric_321) i =
    Some (mk_AddTag (vendor example_ctags ++ str "/" ++ fst e)
                    (mk_MessageTagData (this example_ctags) (snd e))).
Proof.
  apply (OnPopulateTags_one_tag_per_entry ascii_case_insensitive_map
           example_server example_ctags numeric_321 Bob bob_tags);
    reflexivity.
Defined.

Lemma UserFromMsg_reads_a_parameter_witness :
  exists e i nickname,
    flat_find (insensitive_swo ascii_case_insensitive_map)
      (GetCommand numeric_321) (specialmsgs example_ctags) = Some e /\
    nth_error (GetParams numeric_321) i = Some nickname /\
    FindNickOnly example_server nickname = Some Bob.
Proof.
  apply (UserFromMsg_reads_a_parameter ascii_case_insensitive_map example_server
           example_ctags numeric_321 Bob); reflexivity.
Defined.

Lemma OnWhoLine_leaves_other_commands_witness :
  UserFromMsg ascii_case_insensitive_map example_server
    (OnWhoLine example_ctags request_with_nick) numeric_321 =
    UserFromMsg ascii_case_insensitive_map example_server example_ctags numeric_321 /\
  OnPopulateTags ascii_case_insensitive_map example_server
    (OnWhoLine example_ctags request_with_nick) numeric_321 =
    OnPopulateTags ascii_case_insensitive_map example_server example_ctags numeric_321.
Proof.
  apply (OnWhoLine_leaves_other_commands ascii_case_insensitive_map example_server
           example_ctags request_with_nick numeric_321).
  reflexivity.
Defined.

Lemma decoded_tags_are_attached_witness :
  In (mk_AddTag (vendor example_ctags ++ str "/" ++ str "Foo")
        (mk_MessageTagData (this example_ctags) (str "1")))
     (OnPopulateTags ascii_case_insensitive_map example_server example_ctags
        (mk_Message (str "PRIVMSG") [str "#chan"; str "hello"]
           (Some (set Alice [(str "Foo", str "1")])))) <->
  List.find (fun p => same_name ascii_case_insensitive_map (fst p) (str "Foo"))
    (pairs_list (payload_tokens (str "Foo 1 foo 2")))
  = Some (str "Foo", str "1").
Proof.
  apply (decoded_tags_are_attached ascii_case_insensitive_map example_server
           example_ctags Alice (set Alice [(str "Foo", str "1")])
           (str "Foo 1 foo 2")
           (mk_Message (str "PRIVMSG") [str "#chan"; str "hello"]
              (Some (set Alice [(str "Foo", str "1")])))
           (str "Foo") (str "1")); reflexivity.
Defined.
